(* Shallow embedding of DALI's MultiPaste operator (CPU path) and of the
   PasteGPU kernel (dali/kernels/imgproc/paste/paste_gpu.h,
   dali/operators/image/paste/multipaste.{h,cc}). *)

From Stdlib Require Import String.
From Stdlib Require Import List ZArith Lia Bool Permutation Arith.
Import ListNotations.
Open Scope Z_scope.
Open Scope list_scope.

(* ------------------------------------------------------------------ *)
(** * Data model *)

(** [ivec<2>]: component [0] is the row (y) axis, component [1] the
    column (x) axis. *)
Record ivec2 := mk2 { v0 : Z; v1 : Z }.

Definition ivec2_scale (v : ivec2) (c : Z) : ivec2 := mk2 (v0 v * c) (v1 v * c).

(** Element types handled by the operator ([DALIDataType]). *)
Inductive DALIDataType :=
| DALI_NO_TYPE | DALI_UINT8 | DALI_INT16 | DALI_INT32 | DALI_INT64
| DALI_FLOAT | DALI_FLOAT64.

Definition dtype_eqb (a b : DALIDataType) : bool :=
  match a, b with
  | DALI_NO_TYPE, DALI_NO_TYPE | DALI_UINT8, DALI_UINT8
  | DALI_INT16, DALI_INT16 | DALI_INT32, DALI_INT32
  | DALI_INT64, DALI_INT64 | DALI_FLOAT, DALI_FLOAT
  | DALI_FLOAT64, DALI_FLOAT64 => true
  | _, _ => false
  end.

(** [sizeof] of the element type, in bytes. *)
Definition type_size (t : DALIDataType) : Z :=
  match t with
  | DALI_NO_TYPE => 0
  | DALI_UINT8 => 1
  | DALI_INT16 => 2
  | DALI_INT32 | DALI_FLOAT => 4
  | DALI_INT64 | DALI_FLOAT64 => 8
  end.

Definition clamp (lo hi v : Z) : Z := Z.max lo (Z.min hi v).

(** Modelled from the spec: [ConvertSat<OutputType>] (dali/core/convert.h,
    not part of the sources) converts with saturation, clamping to the
    range of the output type.  Pixel values are modelled as integers, so
    the floating-point types keep the value. *)
Definition ConvertSat (t : DALIDataType) (v : Z) : Z :=
  match t with
  | DALI_UINT8 => clamp 0 255 v
  | DALI_INT16 => clamp (-32768) 32767 v
  | DALI_INT32 => clamp (-2147483648) 2147483647 v
  | DALI_INT64 => clamp (-9223372036854775808) 9223372036854775807 v
  | _ => v
  end.

(** A tensor of a batch: its shape (HWC) and its elements, row-major. *)
Record Tensor := { tshape : list Z; tdata : list Z }.

Definition shape_at (t : Tensor) (d : nat) : Z := nth d (tshape t) 0.

(** Element read [data[off]] of a tensor. *)
Definition read_elem (t : Tensor) (off : Z) : Z := nth (Z.to_nat off) (tdata t) 0.

(* ------------------------------------------------------------------ *)
(** * GPU descriptors (paste_gpu.h) *)

(** [paste::GridCellInput<2>]: the resolved grid cell handed to the kernel;
    [input_idx = -1] marks a background cell. *)
Record GridCellInput := {
  input_idx : Z;
  gi_cell_start : ivec2;
  gi_cell_end : ivec2;
  gi_in_anchor : ivec2 }.

(** [paste::MultiPasteSampleInput<2>]. *)
Record MultiPasteSampleInput := {
  si_grid_cell_start_idx : Z;
  si_cell_counts : ivec2 }.

(** [GridCellGPU]: [in] is [None] for [nullptr], or [Some i] for
    [in[i].data], the data pointer of input sample [i]. *)
Record GridCellGPU := {
  cin : option nat;
  cell_start : ivec2;
  cell_end : ivec2;
  in_anchor : ivec2;
  in_pitch : ivec2 }.

(** [SampleDescriptorGPU]: [out] is [Some i] for [out[i].data]. *)
Record SampleDescriptorGPU := {
  sout : option nat;
  grid_cell_start_idx : Z;
  cell_counts : ivec2;
  out_pitch : ivec2 }.

(** [BlockDesc<2>]: [.x] is the fast (column) axis, [.y] the row axis. *)
Record BlockDesc := {
  sample_idx : nat;
  start_x : Z; start_y : Z;
  end_x : Z; end_y : Z }.

(** The writes of one iteration of the first loop of
    [CreateSampleDescriptors]; [out_pitch[0]] is not assigned and keeps
    the value the descriptor had. *)
Definition pack_sample (gpu_sample : SampleDescriptorGPU) (i : nat)
    (cpu_sample : MultiPasteSampleInput) (out_i : Tensor) (channels : Z)
    : SampleDescriptorGPU :=
  {| sout := Some i;
     grid_cell_start_idx := si_grid_cell_start_idx cpu_sample;
     cell_counts := si_cell_counts cpu_sample;
     out_pitch := mk2 (v0 (out_pitch gpu_sample)) (shape_at out_i 1 * channels) |}.

(** The writes of one iteration of the second loop; [in_pitch[0]] keeps the
    old value and the whole [in_pitch] is scaled by [channels]. *)
Definition pack_cell (gpu_grid_cell : GridCellGPU) (cpu_grid_cell : GridCellInput)
    (inl : list Tensor) (channels : Z) : GridCellGPU :=
  let idx := input_idx cpu_grid_cell in
  let pitch1 := if idx =? -1 then -1 else shape_at (nth (Z.to_nat idx) inl
                                                       {| tshape := []; tdata := [] |}) 1 in
  {| cin := if idx =? -1 then None else Some (Z.to_nat idx);
     cell_start := mk2 (v0 (gi_cell_start cpu_grid_cell)) (v1 (gi_cell_start cpu_grid_cell) * channels);
     cell_end := mk2 (v0 (gi_cell_end cpu_grid_cell)) (v1 (gi_cell_end cpu_grid_cell) * channels);
     in_anchor := mk2 (v0 (gi_in_anchor cpu_grid_cell)) (v1 (gi_in_anchor cpu_grid_cell) * channels);
     in_pitch := ivec2_scale (mk2 (v0 (in_pitch gpu_grid_cell)) pitch1) channels |}.

Fixpoint pack_samples (descs : list SampleDescriptorGPU) (samples : list MultiPasteSampleInput)
    (outl : list Tensor) (i : nat) (channels : Z) : list SampleDescriptorGPU :=
  match descs, samples with
  | d :: ds, s :: ss =>
      pack_sample d i s (nth i outl {| tshape := []; tdata := [] |}) channels
        :: pack_samples ds ss outl (S i) channels
  | ds, [] => ds
  | [], _ :: _ => []
  end.

Fixpoint pack_cells (cells : list GridCellGPU) (grid : list GridCellInput)
    (inl : list Tensor) (channels : Z) : list GridCellGPU :=
  match cells, grid with
  | c :: cs, g :: gs => pack_cell c g inl channels :: pack_cells cs gs inl channels
  | cs, [] => cs
  | [], _ :: _ => []
  end.

(** [paste::CreateSampleDescriptors]: updates the two descriptor arrays. *)
Definition CreateSampleDescriptors (out_descs : list SampleDescriptorGPU)
    (out_grid_cells : list GridCellGPU) (outl inl : list Tensor)
    (samples : list MultiPasteSampleInput) (grid : list GridCellInput) (channels : Z)
    : list SampleDescriptorGPU * list GridCellGPU :=
  (pack_samples out_descs samples outl 0 channels,
   pack_cells out_grid_cells grid inl channels).

(* ------------------------------------------------------------------ *)
(** * PasteKernel *)

Definition default_cell : GridCellGPU :=
  {| cin := None; cell_start := mk2 0 0; cell_end := mk2 0 0;
     in_anchor := mk2 0 0; in_pitch := mk2 0 0 |}.

Definition default_tensor : Tensor := {| tshape := []; tdata := [] |}.

(** [my_grid_cells[i]]. *)
Definition cell_at (cells : list GridCellGPU) (i : nat) : GridCellGPU :=
  nth i cells default_cell.

(** [while (v >= endof(i)) i++;], run for at most [fuel] rounds. *)
Fixpoint adv (fuel : nat) (endof : nat -> Z) (v : Z) (i : nat) : nat :=
  match fuel with
  | O => i
  | S f => if endof i <=? v then adv f endof v (S i) else i
  end.

(** What one visit of the inner loop body does at output position
    [(y, x)] with the cursor on cell [k]: the reads through the cell's
    source pointer, the output offset and the stored value. *)
Record step := {
  st_y : Z; st_x : Z; st_cell : nat;
  st_reads : list (nat * Z);
  st_addr : Z; st_val : Z }.

Section Kernel.
Variable OutputType : DALIDataType.
Variable inl : list Tensor.
  (** [my_grid_cells], the cells from the sample's first one on. *)
Variable cells : list GridCellGPU.
  (** [sample.cell_counts[1]] and [sample.out_pitch]. *)
Variable ncols : nat.
Variable pitch : ivec2.
Variable block : BlockDesc.
  (** [threadIdx.x], [threadIdx.y], [blockDim.x], [blockDim.y]. *)
Variables tx ty bdx bdy : Z.

Definition fuel := length cells.

Definition paste_pixel (y x : Z) (k : nat) : step :=
    let cell := cell_at cells k in
    match cin cell with
    | None =>
        {| st_y := y; st_x := x; st_cell := k; st_reads := [];
           st_addr := y * v1 pitch + x; st_val := 0 |}
    | Some i =>
        let off := (y - v0 (cell_start cell) + v0 (in_anchor cell)) * v1 (in_pitch cell)
                   + (x - v1 (cell_start cell) + v1 (in_anchor cell)) in
        {| st_y := y; st_x := x; st_cell := k; st_reads := [(i, off)];
           st_addr := y * v1 pitch + x;
           st_val := ConvertSat OutputType (read_elem (nth i inl default_tensor) off) |}
    end.

  (** [for (x = ...; x < block.end.x; x += blockDim.x)] with the cursor
      [grid_x]. *)
Fixpoint col_loop (n : nat) (y : Z) (grid_y grid_x : nat) (x : Z) : list step :=
    match n with
    | O => []
    | S n' =>
        if x <? end_x block then
          let grid_x' :=
            adv fuel (fun g => v1 (cell_end (cell_at cells (grid_y * ncols + g)))) x grid_x in
          paste_pixel y x (grid_y * ncols + grid_x')
            :: col_loop n' y grid_y grid_x' (x + bdx)
        else []
    end.

  (** [for (y = ...; y < block.end.y; y += blockDim.y)] with the cursor
      [grid_y]; each row restarts [grid_x] at [min_grid_x]. *)
Fixpoint row_loop (n : nat) (y : Z) (grid_y min_grid_x : nat) : list step :=
    match n with
    | O => []
    | S n' =>
        if y <? end_y block then
          let grid_y' :=
            adv fuel (fun g => v0 (cell_end (cell_at cells (g * ncols)))) y grid_y in
          col_loop (Z.to_nat (end_x block - (tx + start_x block))) y grid_y' min_grid_x
                   (tx + start_x block)
            ++ row_loop n' (y + bdy) grid_y' min_grid_x
        else []
    end.

  (** The whole run of one thread; loop counts are bounded by the
      distance to the end since the strides are at least 1. *)
Definition thread_scan : list step :=
    let min_grid_x :=
      adv fuel (fun g => v1 (cell_end (cell_at cells g))) (tx + start_x block) 0 in
    row_loop (Z.to_nat (end_y block - (ty + start_y block))) (ty + start_y block) 0 min_grid_x.
End Kernel.

Definition default_block : BlockDesc :=
  {| sample_idx := 0; start_x := 0; start_y := 0; end_x := 0; end_y := 0 |}.

Definition default_sample : SampleDescriptorGPU :=
  {| sout := None; grid_cell_start_idx := 0; cell_counts := mk2 0 0; out_pitch := mk2 0 0 |}.

(** [PasteKernel] as run by thread [(tx, ty)] of block [blockIdx]. *)
Definition PasteKernel (OutputType : DALIDataType) (inl : list Tensor)
    (samples : list SampleDescriptorGPU) (grid_cells : list GridCellGPU)
    (blocks : list BlockDesc) (blockIdx : nat) (tx ty bdx bdy : Z) : list step :=
  let block := nth blockIdx blocks default_block in
  let sample := nth (sample_idx block) samples default_sample in
  let my_grid_cells := skipn (Z.to_nat (grid_cell_start_idx sample)) grid_cells in
  thread_scan OutputType inl my_grid_cells (Z.to_nat (v1 (cell_counts sample)))
              (out_pitch sample) block tx ty bdx bdy.

(** The naive per-pixel search: the first cell whose
    [[cell_start, cell_end)] rectangle contains [(y, x)]. *)
Definition contains (c : GridCellGPU) (y x : Z) : bool :=
  (v0 (cell_start c) <=? y) && (y <? v0 (cell_end c))
  && (v1 (cell_start c) <=? x) && (x <? v1 (cell_end c)).

Fixpoint find_cell (l : list GridCellGPU) (i : nat) (y x : Z) : option nat :=
  match l with
  | [] => None
  | c :: l' => if contains c y x then Some i else find_cell l' (S i) y x
  end.

Definition naive_cell (l : list GridCellGPU) (y x : Z) : option nat := find_cell l 0 y x.

(** The grid of one sample, [nrows] by [ncols] cells in row-major order,
    with non-decreasing row boundaries [ys] and column boundaries [xs]
    covering the canvas [[0, H) x [0, W)]. *)
Definition grid_ok (cells : list GridCellGPU) (nrows ncols : nat) (H W : Z) : Prop :=
  exists ys xs : nat -> Z,
    ys 0%nat = 0 /\ ys nrows = H /\ xs 0%nat = 0 /\ xs ncols = W /\
    (forall r, (r < nrows)%nat -> ys r <= ys (S r)) /\
    (forall c, (c < ncols)%nat -> xs c <= xs (S c)) /\
    (forall r c, (r < nrows)%nat -> (c < ncols)%nat ->
       cell_start (cell_at cells (r * ncols + c)) = mk2 (ys r) (xs c) /\
       cell_end (cell_at cells (r * ncols + c)) = mk2 (ys (S r)) (xs (S c))).

(* ------------------------------------------------------------------ *)
(** * PasteGPU: Setup and Run *)

Inductive AllocType := Host | Pinned | GPU | Unified.

(** Modelled from the spec: [ScratchpadEstimator] (not part of the sources);
    the spec describes the planner's result as named byte requirements, so
    each [se.add<T>(type, count)] records [sizeof(T) * count] bytes. *)
Record ScratchReq := { alloc : AllocType; nbytes : Z }.

Definition se_add (sizes : list ScratchReq) (type : AllocType) (size_of count : Z)
    : list ScratchReq :=
  sizes ++ [{| alloc := type; nbytes := size_of * count |}].

Record KernelRequirements := { scratch_sizes : list ScratchReq }.

(** The members of a [PasteGPU] object. *)
Record PasteGPU := {
  sample_descriptors_ : list SampleDescriptorGPU;
  grid_cell_descriptors_ : list GridCellGPU;
  blocks_ : list BlockDesc }.

(** [std::vector::resize]. *)
Definition resize {A} (n : nat) (l : list A) (d : A) : list A :=
  firstn n l ++ repeat d (n - length l).

(** [collapse_dim(out_shape, 1)]: merges the width and channel extents. *)
Definition collapse_dim1 (sh : list Z) : list Z :=
  match sh with
  | h :: w :: c :: rest => h :: (w * c) :: rest
  | _ => sh
  end.

(** The lambda passed to [DALI_ENFORCE] in [Setup]. *)
Definition channels_equal (inl : list Tensor) : bool :=
  let ref_nchannels := shape_at (nth 0 inl default_tensor) 2 in
  forallb (fun t => shape_at t 2 =? ref_nchannels) inl.

Section PasteGPUClass.
  (** [sizeof(SampleDesc)], [sizeof(GridCellDesc)], [sizeof(BlockDesc)]. *)
Variables sizeof_SampleDesc sizeof_GridCellDesc sizeof_BlockDesc : Z.
  (** [block_setup_.SetupBlocks(shape, true)] followed by [Blocks()]
      (BlockSetup, not part of the sources). *)
Variable SetupBlocks : list (list Z) -> list BlockDesc.

  (** [PasteGPU::Setup]: an error is a raised [DALI_ENFORCE]. *)
Definition Setup (self : PasteGPU) (inl : list Tensor) (samples : list MultiPasteSampleInput)
      (grid_cells : list GridCellInput) (out_shape : list (list Z))
      : string + (KernelRequirements * PasteGPU) :=
    if negb (channels_equal inl)
    then Datatypes.inl "Number of channels for every image in batch must be equal"%string
    else
      let flattened_shape := map collapse_dim1 out_shape in
      let blocks := SetupBlocks flattened_shape in
      let self' := {| sample_descriptors_ := resize (length samples) (sample_descriptors_ self)
                                              default_sample;
                      grid_cell_descriptors_ := resize (length grid_cells)
                                                  (grid_cell_descriptors_ self) default_cell;
                      blocks_ := blocks |} in
      let sizes := se_add [] GPU sizeof_SampleDesc (Z.of_nat (length samples)) in
      let sizes := se_add sizes GPU sizeof_GridCellDesc (Z.of_nat (length grid_cells)) in
      let sizes := se_add sizes GPU sizeof_BlockDesc (Z.of_nat (length blocks)) in
      Datatypes.inr ({| scratch_sizes := sizes |}, self').
End PasteGPUClass.

(** [PasteGPU::Run] up to the launch: the descriptors it packs (with the
    channel count passed as the literal 3) and hands to the kernel. *)
Definition Run (self : PasteGPU) (outl inl : list Tensor) (samples : list MultiPasteSampleInput)
    (grid : list GridCellInput) : PasteGPU :=
  let (sds, gcs) := CreateSampleDescriptors (sample_descriptors_ self)
                      (grid_cell_descriptors_ self) outl inl samples grid 3 in
  {| sample_descriptors_ := sds; grid_cell_descriptors_ := gcs; blocks_ := blocks_ self |}.

(* ------------------------------------------------------------------ *)
(** * MultiPasteCpu (multipaste.h, multipaste.cc) *)

(** [TensorList]: the samples and the element type of the batch. *)
Record TensorList := { tl_tensors : list Tensor; tl_type : DALIDataType }.

(** [output_type_] as [AcquireArguments] sets it. *)
Definition resolve_output_type (output_type_arg input_type : DALIDataType) : DALIDataType :=
  if negb (dtype_eqb output_type_arg DALI_NO_TYPE) then output_type_arg else input_type.

(** The type list of both [TYPE_SWITCH]es. *)
Definition supported_type (t : DALIDataType) : bool :=
  match t with
  | DALI_UINT8 | DALI_INT16 | DALI_INT32 | DALI_FLOAT => true
  | _ => false
  end.

Record OutputDesc := { od_shapes : list (list Z); od_type : DALIDataType }.

(** The loop of [SetupImpl]: [(output_size_[i][0], output_size_[i][1], sh[i][2])]. *)
Fixpoint out_shapes (ts : list Tensor) (output_size : list (list Z)) : list (list Z) :=
  match ts with
  | [] => []
  | t :: ts' =>
      [nth 0 (hd [] output_size) 0; nth 1 (hd [] output_size) 0; shape_at t 2]
        :: out_shapes ts' (tl output_size)
  end.

(** [MultiPasteCpu::SetupImpl]; an error is a [DALI_FAIL]. *)
Definition SetupImpl (output_type_arg : DALIDataType) (images : TensorList)
    (output_size : list (list Z)) : string + OutputDesc :=
  let output_type_ := resolve_output_type output_type_arg (tl_type images) in
  if negb (supported_type (tl_type images)) then Datatypes.inl "Unsupported input type"%string
  else if negb (supported_type output_type_) then Datatypes.inl "Unsupported output type"%string
  else Datatypes.inr {| od_shapes := out_shapes (tl_tensors images) output_size;
                        od_type := output_type_ |}.

(** A sample's output canvas, element index to element value. *)
Definition Store := Z -> Z.

(** [memset(data, 0, n)] on a buffer of [sz]-byte elements: [n] counts
    bytes, so it clears the elements lying in the first [n] bytes and the
    low bytes of the element straddling byte [n] (little-endian). *)
Definition memset_zero (sz n : Z) (st : Store) : Store := fun e =>
  if (0 <=? e) && ((e + 1) * sz <=? n) then 0
  else if (0 <=? e) && (e * sz <? n) then Z.land (st e) (Z.lnot (2 ^ (8 * (n - e * sz)) - 1))
  else st e.

(** One paste iteration: [in_idx_[i][iter]] and the anchors and shape the
    operator resolves for it. *)
Record PasteIter := {
  from_sample : nat;
  it_in_anchor : ivec2;
  it_shape : ivec2;
  it_out_anchor : ivec2 }.

(** Whether element [e] of an [H x W x C] canvas lies in the destination
    rectangle of the iteration. *)
Definition covers (out_sh : list Z) (it : PasteIter) (e : Z) : bool :=
  let H := nth 0 out_sh 0 in let W := nth 1 out_sh 0 in let C := nth 2 out_sh 0 in
  let py := e / (W * C) in let px := (e / C) mod W in
  (0 <=? e) && (e <? H * W * C)
  && (v0 (it_out_anchor it) <=? py) && (py <? v0 (it_out_anchor it) + v0 (it_shape it))
  && (v1 (it_out_anchor it) <=? px) && (px <? v1 (it_out_anchor it) + v1 (it_shape it)).

(** Modelled from the spec: the value [PasteCpu] (dali/kernels/imgproc/
    paste/paste.h, not part of the sources) stores at element [e] of the
    destination rectangle: the source element at the same offset from the
    source anchor, same channel, converted with saturation. *)
Definition paste_value (OutputType : DALIDataType) (out_sh : list Z) (images : list Tensor)
    (it : PasteIter) (e : Z) : Z :=
  let W := nth 1 out_sh 0 in let C := nth 2 out_sh 0 in
  let py := e / (W * C) in let px := (e / C) mod W in let c := e mod C in
  let img := nth (from_sample it) images default_tensor in
  ConvertSat OutputType
    (read_elem img (((v0 (it_in_anchor it) + py - v0 (it_out_anchor it)) * shape_at img 1
                     + (v1 (it_in_anchor it) + px - v1 (it_out_anchor it))) * shape_at img 2 + c)).

(** Modelled from the spec: [kernel_manager_.Run<PasteCpu>] for one
    iteration writes its destination rectangle and nothing else. *)
Definition paste_cpu (OutputType : DALIDataType) (out_sh : list Z) (images : list Tensor)
    (it : PasteIter) (st : Store) : Store := fun e =>
  if covers out_sh it e then paste_value OutputType out_sh images it e else st e.

Definition rect_overlap (a b : PasteIter) : bool :=
  (v0 (it_out_anchor a) <? v0 (it_out_anchor b) + v0 (it_shape b))
  && (v0 (it_out_anchor b) <? v0 (it_out_anchor a) + v0 (it_shape a))
  && (v1 (it_out_anchor a) <? v1 (it_out_anchor b) + v1 (it_shape b))
  && (v1 (it_out_anchor b) <? v1 (it_out_anchor a) + v1 (it_shape a)).

(** Modelled from the spec: [no_intersections_[i]] (computed outside the
    sources) holds when the destination rectangles of the sample's
    iterations are pairwise non-overlapping. *)
Fixpoint no_intersections (l : list PasteIter) : bool :=
  match l with
  | [] => true
  | a :: l' => forallb (fun b => negb (rect_overlap a b)) l' && no_intersections l'
  end.

Definition run_pastes (OutputType : DALIDataType) (out_sh : list Z) (images : list Tensor)
    (l : list PasteIter) (st : Store) : Store :=
  fold_left (fun acc it => paste_cpu OutputType out_sh images it acc) l st.

(** The body of [RunImpl]'s loop for sample [i], whose canvas has shape
    [out_sh] and held [prior] before the run.  Without intersections every
    iteration is its own work item and [dispatch] is the order in which the
    thread pool runs them; otherwise one work item runs them in list order. *)
Definition RunImpl_sample (OutputType : DALIDataType) (out_sh : list Z) (images : list Tensor)
    (iters dispatch : list PasteIter) (prior : Store) : Store :=
  let to_zero := memset_zero (type_size OutputType)
                   (nth 0 out_sh 0 * nth 1 out_sh 0 * nth 2 out_sh 0) prior in
  if no_intersections iters
  then run_pastes OutputType out_sh images dispatch to_zero
  else run_pastes OutputType out_sh images iters to_zero.

(* ------------------------------------------------------------------ *)
(** * The forward-only cursor *)

Lemma adv_reach (fuel : nat) : forall endof v (i t : nat),
  (i <= t)%nat -> (t - i <= fuel)%nat ->
  (forall j, (i <= j < t)%nat -> endof j <= v) -> v < endof t ->
  adv fuel endof v i = t.
Proof.
  induction fuel as [|f IH]; intros endof v i t Hit Hf Hbelow Ht; simpl.
  - lia.
  - destruct (endof i <=? v) eqn:E.
    + apply Z.leb_le in E.
      assert (i <> t) by (intro; subst; lia).
      apply IH; [lia | lia | | exact Ht].
      intros j Hj; apply Hbelow; lia.
    + apply Z.leb_gt in E.
      destruct (Nat.eq_dec i t) as [->|Hne]; [reflexivity|].
      specialize (Hbelow i ltac:(lia)); lia.
Qed.

Section Boundaries.
Variable bs : nat -> Z.
Variable n : nat.
Hypothesis Hmono : forall r, (r < n)%nat -> bs r <= bs (S r).

Lemma bound_mono : forall i j, (i <= j <= n)%nat -> bs i <= bs j.
  Proof.
    intros i j; induction j as [|j IH]; intros H.
    - replace i with 0%nat by lia; lia.
    - destruct (Nat.eq_dec i (S j)) as [->|Hne]; [lia|].
      specialize (IH ltac:(lia)); specialize (Hmono j ltac:(lia)); lia.
  Qed.

Lemma segment_exists : forall v, bs 0%nat <= v < bs n ->
    exists r, (r < n)%nat /\ bs r <= v < bs (S r).
  Proof.
    clear Hmono.
    induction n as [|m IH]; intros v Hv; [lia|].
    destruct (Z_lt_le_dec v (bs m)) as [Hlt|Hge].
    - destruct (IH v ltac:(lia)) as [r [Hr Hb]]. exists r; split; [lia|exact Hb].
    - exists m; split; [lia|lia].
  Qed.

Lemma segment_unique : forall v r r',
    (r < n)%nat -> (r' < n)%nat -> bs r <= v < bs (S r) -> bs r' <= v < bs (S r') ->
    r = r'.
  Proof.
    intros v r r' Hr Hr' H1 H2.
    destruct (lt_eq_lt_dec r r') as [[Hlt|Heq]|Hgt]; [|exact Heq|].
    - pose proof (bound_mono (S r) r' ltac:(lia)); lia.
    - pose proof (bound_mono (S r') r ltac:(lia)); lia.
  Qed.

  (** The cursor run from any position [i] that has not passed the segment
      of [v] stops on that segment. *)
Lemma adv_segment : forall fuel (endof : nat -> Z) v (i r : nat),
    (r < n)%nat -> bs r <= v < bs (S r) ->
    (forall j, (j < n)%nat -> endof j = bs (S j)) ->
    (forall j, (j < i)%nat -> bs (S j) <= v) ->
    (r < fuel)%nat ->
    adv fuel endof v i = r.
  Proof.
    intros fuel endof v i r Hr Hv Hend Hi Hfuel.
    assert (i <= r)%nat.
    { destruct (le_lt_dec i r) as [|Hlt]; [assumption|].
      specialize (Hi r Hlt); lia. }
    apply adv_reach; [lia | lia | | rewrite Hend by lia; lia].
    intros j Hj. rewrite Hend by lia.
    pose proof (bound_mono (S j) r ltac:(lia)); lia.
  Qed.
End Boundaries.

(** A visit of the scan at a pixel lying in the cell the cursor names. *)
Definition located (ys xs : nat -> Z) (nrows ncols : nat) (s : step) : Prop :=
  exists r c, (r < nrows)%nat /\ (c < ncols)%nat /\ st_cell s = (r * ncols + c)%nat /\
    ys r <= st_y s < ys (S r) /\ xs c <= st_x s < xs (S c).

Section Scan.
Variable OutputType : DALIDataType.
Variable inl : list Tensor.
Variable cells : list GridCellGPU.
Variables nrows ncols : nat.
Variables H W : Z.
Variable pitch : ivec2.
Variable block : BlockDesc.
Variables tx ty bdx bdy : Z.
Variables ys xs : nat -> Z.
Hypothesis Hys0 : ys 0%nat = 0.
Hypothesis HysR : ys nrows = H.
Hypothesis Hxs0 : xs 0%nat = 0.
Hypothesis HxsC : xs ncols = W.
Hypothesis Hysm : forall r, (r < nrows)%nat -> ys r <= ys (S r).
Hypothesis Hxsm : forall c, (c < ncols)%nat -> xs c <= xs (S c).
Hypothesis Hcells : forall r c, (r < nrows)%nat -> (c < ncols)%nat ->
    cell_start (cell_at cells (r * ncols + c)) = mk2 (ys r) (xs c) /\
    cell_end (cell_at cells (r * ncols + c)) = mk2 (ys (S r)) (xs (S c)).
Hypothesis Hlen : (nrows * ncols <= length cells)%nat.
Hypothesis Hendx : end_x block <= W.
Hypothesis Hendy : end_y block <= H.
Hypothesis Hncols : (0 < ncols)%nat.

Lemma col_loop_located : forall m y r gx x,
    (r < nrows)%nat -> ys r <= y < ys (S r) -> 0 <= x -> 0 < bdx ->
    (x < end_x block -> forall j, (j < gx)%nat -> xs (S j) <= x) ->
    Forall (located ys xs nrows ncols)
      (col_loop OutputType inl cells ncols pitch block bdx m y r gx x).
  Proof.
    induction m as [|m IH]; intros y r gx x Hr Hy Hx Hbdx Hgx; simpl; [constructor|].
    destruct (x <? end_x block) eqn:Ex; [|constructor].
    apply Z.ltb_lt in Ex.
    destruct (segment_exists xs ncols x ltac:(lia)) as [c [Hc Hxc]].
    assert (Hadv : adv (fuel cells) (fun g => v1 (cell_end (cell_at cells (r * ncols + g)))) x gx = c).
    { apply (adv_segment xs ncols Hxsm); auto.
      - intros j Hj. destruct (Hcells r j Hr Hj) as [_ ->]. reflexivity.
      - unfold fuel. nia. }
    rewrite Hadv. constructor.
    - exists r, c. unfold paste_pixel.
      destruct (cin (cell_at cells (r * ncols + c))); simpl; repeat split; auto; lia.
    - apply IH; auto; [lia|].
      intros _ j Hj. pose proof (bound_mono xs ncols Hxsm (S j) c ltac:(lia)). lia.
  Qed.

Lemma row_loop_located : forall m y gy mgx,
    0 <= y -> 0 < bdx -> 0 < bdy -> 0 <= tx + start_x block ->
    (tx + start_x block < end_x block -> forall j, (j < mgx)%nat ->
       xs (S j) <= tx + start_x block) ->
    (forall j, (j < gy)%nat -> ys (S j) <= y) ->
    Forall (located ys xs nrows ncols)
      (row_loop OutputType inl cells ncols pitch block tx bdx bdy m y gy mgx).
  Proof.
    induction m as [|m IH]; intros y gy mgx Hy Hbdx Hbdy Hx0 Hmgx Hgy; simpl; [constructor|].
    destruct (y <? end_y block) eqn:Ey; [|constructor].
    apply Z.ltb_lt in Ey.
    destruct (segment_exists ys nrows y ltac:(lia)) as [r [Hr Hyr]].
    assert (Hadv : adv (fuel cells) (fun g => v0 (cell_end (cell_at cells (g * ncols)))) y gy = r).
    { apply (adv_segment ys nrows Hysm); auto.
      - intros j Hj. rewrite <- (Nat.add_0_r (j * ncols)).
        destruct (Hcells j 0 Hj Hncols) as [_ ->]. reflexivity.
      - unfold fuel. nia. }
    rewrite Hadv. apply Forall_app; split.
    - apply col_loop_located; auto.
    - apply IH; auto; [lia|].
      intros j Hj. pose proof (bound_mono ys nrows Hysm (S j) r ltac:(lia)). lia.
  Qed.
End Scan.

Lemma row_loop_past_end : forall OutputType inl cells ncols pitch block tx bdx bdy m y gy mgx,
  end_y block <= y ->
  row_loop OutputType inl cells ncols pitch block tx bdx bdy m y gy mgx = [].
Proof.
  intros; destruct m; simpl; [reflexivity|].
  destruct (y <? end_y block) eqn:E; [apply Z.ltb_lt in E; lia | reflexivity].
Qed.

Lemma row_loop_no_cols : forall OutputType inl cells ncols pitch block tx bdx bdy m y gy mgx,
  end_x block <= tx + start_x block ->
  row_loop OutputType inl cells ncols pitch block tx bdx bdy m y gy mgx = [].
Proof.
  intros OutputType inl cells ncols pitch block tx bdx bdy m.
  induction m as [|m IH]; intros y gy mgx Hx; simpl; [reflexivity|].
  destruct (y <? end_y block); [|reflexivity].
  replace (Z.to_nat (end_x block - (tx + start_x block))) with 0%nat by lia.
  simpl; apply IH; exact Hx.
Qed.

Lemma find_cell_first : forall y x l n k,
  (k < length l)%nat -> contains (nth k l default_cell) y x = true ->
  (forall i, (i < k)%nat -> contains (nth i l default_cell) y x = false) ->
  find_cell l n y x = Some (n + k)%nat.
Proof.
  intros y x l; induction l as [|c l IH]; intros n k Hk Hin Hbefore; simpl in *; [lia|].
  destruct k as [|k].
  - rewrite Hin. f_equal; lia.
  - rewrite (Hbefore 0%nat ltac:(lia)).
    rewrite (IH (S n) k ltac:(lia) Hin); [f_equal; lia|].
    intros i Hi; apply (Hbefore (S i)); lia.
Qed.

(** Under the grid invariant a pixel lies in at most one cell of the sample. *)
Lemma grid_cell_unique : forall cells nrows ncols ys xs y x r c i,
  (forall r, (r < nrows)%nat -> ys r <= ys (S r)) ->
  (forall c, (c < ncols)%nat -> xs c <= xs (S c)) ->
  (forall r c, (r < nrows)%nat -> (c < ncols)%nat ->
     cell_start (cell_at cells (r * ncols + c)) = mk2 (ys r) (xs c) /\
     cell_end (cell_at cells (r * ncols + c)) = mk2 (ys (S r)) (xs (S c))) ->
  (r < nrows)%nat -> (c < ncols)%nat -> ys r <= y < ys (S r) -> xs c <= x < xs (S c) ->
  (i < nrows * ncols)%nat -> contains (cell_at cells i) y x = true ->
  i = (r * ncols + c)%nat.
Proof.
  intros cells nrows ncols ys xs y x r c i Hysm Hxsm Hcells Hr Hc Hy Hx Hi Hin.
  assert (Hn : ncols <> 0%nat) by lia.
  pose proof (Nat.div_mod i ncols Hn) as Hdm.
  pose proof (Nat.mod_upper_bound i ncols Hn) as Hc'.
  assert (Hr' : (i / ncols < nrows)%nat) by (apply Nat.Div0.div_lt_upper_bound; lia).
  assert (Hi' : i = (i / ncols * ncols + i mod ncols)%nat) by lia.
  rewrite Hi' in Hin.
  destruct (Hcells (i / ncols)%nat (i mod ncols)%nat Hr' Hc') as [Hs He].
  unfold contains in Hin; rewrite Hs, He in Hin; simpl in Hin.
  repeat rewrite andb_true_iff in Hin; repeat rewrite Z.leb_le in Hin;
    repeat rewrite Z.ltb_lt in Hin.
  assert (i / ncols = r)%nat by
    (apply (segment_unique ys nrows Hysm y); auto; lia).
  assert (i mod ncols = c)%nat by
    (apply (segment_unique xs ncols Hxsm x); auto; lia).
  lia.
Qed.

Lemma thread_scan_located : forall OutputType inl cells nrows ncols H W pitch block
    tx ty bdx bdy ys xs,
  ys 0%nat = 0 -> ys nrows = H -> xs 0%nat = 0 -> xs ncols = W ->
  (forall r, (r < nrows)%nat -> ys r <= ys (S r)) ->
  (forall c, (c < ncols)%nat -> xs c <= xs (S c)) ->
  (forall r c, (r < nrows)%nat -> (c < ncols)%nat ->
     cell_start (cell_at cells (r * ncols + c)) = mk2 (ys r) (xs c) /\
     cell_end (cell_at cells (r * ncols + c)) = mk2 (ys (S r)) (xs (S c))) ->
  (nrows * ncols <= length cells)%nat ->
  0 <= start_x block -> 0 <= start_y block -> end_x block <= W -> end_y block <= H ->
  0 <= tx -> 0 <= ty -> 0 < bdx -> 0 < bdy ->
  Forall (located ys xs nrows ncols)
    (thread_scan OutputType inl cells ncols pitch block tx ty bdx bdy).
Proof.
  intros OutputType inl cells nrows ncols H W pitch block tx ty bdx bdy ys xs
    Hys0 HysR Hxs0 HxsC Hysm Hxsm Hcells Hlen Hsx Hsy Hex Hey Htx Hty Hbdx Hbdy.
  unfold thread_scan.
  destruct (Z_lt_le_dec (tx + start_x block) (end_x block)) as [Hx0|Hx0];
    [|rewrite row_loop_no_cols by exact Hx0; constructor].
  destruct (Z_lt_le_dec (ty + start_y block) (end_y block)) as [Hy0|Hy0];
    [|rewrite row_loop_past_end by exact Hy0; constructor].
  assert (Hc : (0 < ncols)%nat) by (destruct ncols; [rewrite <- HxsC in Hex; lia | lia]).
  assert (Hr : (0 < nrows)%nat) by (destruct nrows; [rewrite <- HysR in Hey; lia | lia]).
  apply (row_loop_located OutputType inl cells nrows ncols H W pitch block tx bdx bdy ys xs);
    auto; try lia.
  intros _ j Hj.
  destruct (segment_exists xs ncols (tx + start_x block) ltac:(lia)) as [c [Hcc Hxc]].
  assert (Hadv : adv (fuel cells) (fun g => v1 (cell_end (cell_at cells g)))
                   (tx + start_x block) 0 = c).
  { apply (adv_segment xs ncols Hxsm); auto; [| lia | unfold fuel; nia].
    intros j' Hj'. destruct (Hcells 0%nat j' Hr Hj') as [_ He].
    simpl in He. rewrite He. reflexivity. }
  rewrite Hadv in Hj.
  pose proof (bound_mono xs ncols Hxsm (S j) c ltac:(lia)). lia.
Qed.

Lemma located_naive : forall cells nrows ncols ys xs s,
  (forall r, (r < nrows)%nat -> ys r <= ys (S r)) ->
  (forall c, (c < ncols)%nat -> xs c <= xs (S c)) ->
  (forall r c, (r < nrows)%nat -> (c < ncols)%nat ->
     cell_start (cell_at cells (r * ncols + c)) = mk2 (ys r) (xs c) /\
     cell_end (cell_at cells (r * ncols + c)) = mk2 (ys (S r)) (xs (S c))) ->
  (nrows * ncols <= length cells)%nat ->
  located ys xs nrows ncols s ->
  naive_cell (firstn (nrows * ncols) cells) (st_y s) (st_x s) = Some (st_cell s) /\
  (forall i, (i < nrows * ncols)%nat ->
     contains (cell_at cells i) (st_y s) (st_x s) = true -> i = st_cell s).
Proof.
  intros cells nrows ncols ys xs s Hysm Hxsm Hcells Hlen [r [c [Hr [Hc [Hk [Hy Hx]]]]]].
  assert (Huniq : forall i, (i < nrows * ncols)%nat ->
     contains (cell_at cells i) (st_y s) (st_x s) = true -> i = st_cell s).
  { intros i Hi Hin. rewrite Hk.
    exact (grid_cell_unique cells nrows ncols ys xs _ _ r c i Hysm Hxsm Hcells
             Hr Hc Hy Hx Hi Hin). }
  split; [|exact Huniq].
  assert (Hkn : (st_cell s < nrows * ncols)%nat) by (rewrite Hk; nia).
  assert (Hnth : forall i, (i < nrows * ncols)%nat ->
            nth i (firstn (nrows * ncols) cells) default_cell = cell_at cells i).
  { intros i Hi. rewrite nth_firstn.
    destruct (Nat.ltb_spec i (nrows * ncols)); [reflexivity | lia]. }
  unfold naive_cell. apply (find_cell_first _ _ _ 0 (st_cell s)).
  - rewrite firstn_length_le; lia.
  - rewrite Hnth by exact Hkn. rewrite Hk.
    destruct (Hcells r c Hr Hc) as [Hs He].
    unfold contains; rewrite Hs, He; simpl.
    repeat rewrite andb_true_iff; repeat rewrite Z.leb_le; repeat rewrite Z.ltb_lt; lia.
  - intros i Hi. rewrite Hnth by lia.
    destruct (contains (cell_at cells i) (st_y s) (st_x s)) eqn:E; [|reflexivity].
    apply Huniq in E; lia.
Qed.

Lemma paste_pixel_pos : forall OutputType inl cells pitch y x k,
  let s := paste_pixel OutputType inl cells pitch y x k in
  st_y s = y /\ st_x s = x /\ st_cell s = k.
Proof. intros; unfold s, paste_pixel; destruct (cin _); simpl; auto. Qed.

(** Every visit of a thread's scan is the loop body run at its pixel and
    its cursor cell. *)
Lemma col_loop_steps : forall OutputType inl cells ncols pitch block bdx m y gy gx x,
  Forall (fun s => s = paste_pixel OutputType inl cells pitch (st_y s) (st_x s) (st_cell s))
    (col_loop OutputType inl cells ncols pitch block bdx m y gy gx x).
Proof.
  intros OutputType inl cells ncols pitch block bdx m.
  induction m as [|m IH]; intros y gy gx x; simpl; [constructor|].
  destruct (x <? end_x block); [|constructor].
  constructor; [|apply IH].
  match goal with |- ?s = _ =>
    destruct (paste_pixel_pos OutputType inl cells pitch y x (gy * ncols +
      adv (fuel cells) (fun g => v1 (cell_end (cell_at cells (gy * ncols + g)))) x gx))
      as [Hy [Hx Hk]] end.
  rewrite Hy, Hx, Hk. reflexivity.
Qed.

Lemma row_loop_steps : forall OutputType inl cells ncols pitch block tx bdx bdy m y gy mgx,
  Forall (fun s => s = paste_pixel OutputType inl cells pitch (st_y s) (st_x s) (st_cell s))
    (row_loop OutputType inl cells ncols pitch block tx bdx bdy m y gy mgx).
Proof.
  intros OutputType inl cells ncols pitch block tx bdx bdy m.
  induction m as [|m IH]; intros y gy mgx; simpl; [constructor|].
  destruct (y <? end_y block); [|constructor].
  apply Forall_app; split; [apply col_loop_steps | apply IH].
Qed.

Lemma thread_scan_steps : forall OutputType inl cells ncols pitch block tx ty bdx bdy,
  Forall (fun s => s = paste_pixel OutputType inl cells pitch (st_y s) (st_x s) (st_cell s))
    (thread_scan OutputType inl cells ncols pitch block tx ty bdx bdy).
Proof. intros; apply row_loop_steps. Qed.

Definition default_grid_input : GridCellInput :=
  {| input_idx := -1; gi_cell_start := mk2 0 0; gi_cell_end := mk2 0 0;
     gi_in_anchor := mk2 0 0 |}.

Lemma nth_pack_cells : forall cells grid inl channels i,
  (i < length grid)%nat -> (i < length cells)%nat ->
  nth i (pack_cells cells grid inl channels) default_cell
  = pack_cell (nth i cells default_cell)
      (nth i grid default_grid_input) inl channels.
Proof.
  induction cells as [|c cs IH]; intros grid inl channels i Hg Hc; simpl in *; [lia|].
  destruct grid as [|g gs]; simpl in *; [lia|].
  destruct i; [reflexivity|]. apply IH; lia.
Qed.

Lemma nth_pack_samples : forall descs samples outl n channels i,
  (i < length samples)%nat -> (i < length descs)%nat ->
  nth i (pack_samples descs samples outl n channels) default_sample
  = pack_sample (nth i descs default_sample) (n + i)
      (nth i samples {| si_grid_cell_start_idx := 0; si_cell_counts := mk2 0 0 |})
      (nth (n + i) outl default_tensor) channels.
Proof.
  induction descs as [|d ds IH]; intros samples outl n channels i Hs Hd; simpl in *; [lia|].
  destruct samples as [|s ss]; simpl in *; [lia|].
  destruct i as [|i].
  - rewrite Nat.add_0_r. reflexivity.
  - rewrite IH by lia. replace (S n + i)%nat with (n + S i)%nat by lia. reflexivity.
Qed.

(* ------------------------------------------------------------------ *)
(** * Concrete grid used by the witnesses *)

Definition mkcell (src : option nat) (y0 x0 y1 x1 : Z) : GridCellGPU :=
  {| cin := src; cell_start := mk2 y0 x0; cell_end := mk2 y1 x1;
     in_anchor := mk2 0 0; in_pitch := mk2 0 3 |}.

(** A 4 x 4 canvas split at row 2 and column 1 into a 2 x 2 grid. *)
Definition ex_cells : list GridCellGPU :=
  [mkcell (Some 0%nat) 0 0 2 1; mkcell None 0 1 2 4;
   mkcell None 2 0 4 1; mkcell (Some 0%nat) 2 1 4 4].

Definition ex_samples : list SampleDescriptorGPU :=
  [{| sout := Some 0%nat; grid_cell_start_idx := 0; cell_counts := mk2 2 2;
      out_pitch := mk2 0 4 |}].

Definition ex_blocks : list BlockDesc :=
  [{| sample_idx := 0; start_x := 0; start_y := 0; end_x := 4; end_y := 4 |}].

Definition ex_inputs : list Tensor :=
  [{| tshape := [4; 3; 1]; tdata := [10; 11; 12; 13; 14; 15; 16; 17; 18; 19; 20; 21] |}].

Definition ex_self0 : PasteGPU :=
  {| sample_descriptors_ := [default_sample]; grid_cell_descriptors_ := [default_cell];
     blocks_ := [] |}.

Lemma ex_grid_ok : grid_ok ex_cells 2 2 4 4.
Proof.
  exists (fun r => nth r [0; 2; 4] 0), (fun c => nth c [0; 1; 4] 0).
  do 4 (split; [reflexivity|]).
  split; [intros r Hr; destruct r as [|[|]]; simpl; lia|].
  split; [intros c Hc; destruct c as [|[|]]; simpl; lia|].
  intros r c Hr Hc; destruct r as [|[|]]; destruct c as [|[|]]; try lia; split; reflexivity.
Qed.

(* ------------------------------------------------------------------ *)
(** * Claims about PasteKernel *)

(** C1: under the row-major monotonic grid invariant, with the grid
    covering the canvas and the block inside it, the cursor of
    [PasteKernel] ([grid_y] only moving forward, [grid_x] moving forward
    within a row from [min_grid_x]) resolves every scanned pixel to the
    same cell as the naive search, and that cell is the only one of the
    sample containing the pixel. *)
Theorem PasteKernel_cursor_matches_naive :
  forall OutputType inl samples grid_cells blocks blockIdx tx ty bdx bdy H W,
  let block := nth blockIdx blocks default_block in
  let sample := nth (sample_idx block) samples default_sample in
  let my_grid_cells := skipn (Z.to_nat (grid_cell_start_idx sample)) grid_cells in
  let nrows := Z.to_nat (v0 (cell_counts sample)) in
  let ncols := Z.to_nat (v1 (cell_counts sample)) in
  (nrows * ncols <= length my_grid_cells)%nat ->
  grid_ok my_grid_cells nrows ncols H W ->
  0 <= start_x block -> 0 <= start_y block -> end_x block <= W -> end_y block <= H ->
  0 <= tx -> 0 <= ty -> 0 < bdx -> 0 < bdy ->
  forall s, In s (PasteKernel OutputType inl samples grid_cells blocks blockIdx tx ty bdx bdy) ->
    naive_cell (firstn (nrows * ncols) my_grid_cells) (st_y s) (st_x s) = Some (st_cell s) /\
    (forall i, (i < nrows * ncols)%nat ->
       contains (cell_at my_grid_cells i) (st_y s) (st_x s) = true -> i = st_cell s).
Proof.
  intros OutputType inl samples grid_cells blocks blockIdx tx ty bdx bdy H W
    block sample my_grid_cells nrows ncols Hlen Hgrid Hsx Hsy Hex Hey Htx Hty Hbdx Hbdy s Hs.
  destruct Hgrid as [ys [xs [Hys0 [HysR [Hxs0 [HxsC [Hysm [Hxsm Hcells]]]]]]]].
  pose proof (thread_scan_located OutputType inl my_grid_cells nrows ncols H W
                (out_pitch sample) block tx ty bdx bdy ys xs Hys0 HysR Hxs0 HxsC
                Hysm Hxsm Hcells Hlen Hsx Hsy Hex Hey Htx Hty Hbdx Hbdy) as Hall.
  rewrite Forall_forall in Hall.
  apply (located_naive my_grid_cells nrows ncols ys xs s Hysm Hxsm Hcells Hlen).
  apply Hall. exact Hs.
Qed.

Lemma PasteKernel_cursor_witness :
  grid_ok ex_cells 2 2 4 4 /\
  Forall (fun s => naive_cell ex_cells (st_y s) (st_x s) = Some (st_cell s))
    (PasteKernel DALI_UINT8 ex_inputs ex_samples ex_cells ex_blocks 0 0 0 1 1).
Proof.
  split; [exact ex_grid_ok|].
  apply Forall_forall. intros s Hs.
  exact (proj1 (PasteKernel_cursor_matches_naive DALI_UINT8 ex_inputs ex_samples ex_cells
                  ex_blocks 0 0 0 1 1 4 4 ltac:(simpl; lia) ex_grid_ok
                  ltac:(simpl; lia) ltac:(simpl; lia) ltac:(simpl; lia) ltac:(simpl; lia)
                  ltac:(lia) ltac:(lia) ltac:(lia) ltac:(lia) s Hs)).
Defined.

(** C2: at every pixel the kernel resolves to a cell it stores, at
    [y * out_pitch[1] + x], the saturating conversion of the source element
    at [(y - cell_start[0] + in_anchor[0]) * in_pitch[1]
    + (x - cell_start[1] + in_anchor[1])] when the cell has a source, and
    0 when it has none. *)
Theorem PasteKernel_stores_cell_value :
  forall OutputType inl samples grid_cells blocks blockIdx tx ty bdx bdy,
  let block := nth blockIdx blocks default_block in
  let sample := nth (sample_idx block) samples default_sample in
  let my_grid_cells := skipn (Z.to_nat (grid_cell_start_idx sample)) grid_cells in
  forall s, In s (PasteKernel OutputType inl samples grid_cells blocks blockIdx tx ty bdx bdy) ->
    let cell := cell_at my_grid_cells (st_cell s) in
    st_addr s = st_y s * v1 (out_pitch sample) + st_x s /\
    st_val s =
      match cin cell with
      | None => 0
      | Some i =>
          ConvertSat OutputType
            (read_elem (nth i inl default_tensor)
               ((st_y s - v0 (cell_start cell) + v0 (in_anchor cell)) * v1 (in_pitch cell)
                + (st_x s - v1 (cell_start cell) + v1 (in_anchor cell))))
      end.
Proof.
  intros OutputType inl samples grid_cells blocks blockIdx tx ty bdx bdy
    block sample my_grid_cells s Hs cell.
  pose proof (thread_scan_steps OutputType inl my_grid_cells
                (Z.to_nat (v1 (cell_counts sample))) (out_pitch sample) block
                tx ty bdx bdy) as Hall.
  rewrite Forall_forall in Hall. specialize (Hall s Hs).
  unfold cell; clear cell Hs.
  destruct s as [y x k rd a v]; simpl in *.
  unfold paste_pixel in Hall.
  destruct (cin (cell_at my_grid_cells k)); injection Hall; intros; subst; split; reflexivity.
Qed.

Lemma PasteKernel_stores_cell_value_witness :
  Forall (fun s => st_addr s = st_y s * 4 + st_x s)
    (PasteKernel DALI_UINT8 ex_inputs ex_samples ex_cells ex_blocks 0 0 0 1 1).
Proof.
  apply Forall_forall. intros s Hs.
  exact (proj1 (PasteKernel_stores_cell_value DALI_UINT8 ex_inputs ex_samples ex_cells
                  ex_blocks 0 0 0 1 1 s Hs)).
Defined.

(** C7: a cell with [input_idx == -1] is packed with a null source pointer
    and the pitch sentinel [-1] scaled by the channel count, and every
    pixel the kernel resolves to a cell without source is written with the
    background 0 without any read through the cell's source pointer. *)
Theorem background_cell_never_read :
  (forall out_descs out_grid_cells outl inl samples grid channels i,
     (i < length grid)%nat -> (i < length out_grid_cells)%nat ->
     input_idx (nth i grid default_grid_input) = -1 ->
     let c := nth i (snd (CreateSampleDescriptors out_descs out_grid_cells outl inl
                                                  samples grid channels)) default_cell in
     cin c = None /\ v1 (in_pitch c) = -1 * channels) /\
  (forall OutputType inl samples grid_cells blocks blockIdx tx ty bdx bdy s,
     let block := nth blockIdx blocks default_block in
     let sample := nth (sample_idx block) samples default_sample in
     let my_grid_cells := skipn (Z.to_nat (grid_cell_start_idx sample)) grid_cells in
     In s (PasteKernel OutputType inl samples grid_cells blocks blockIdx tx ty bdx bdy) ->
     cin (cell_at my_grid_cells (st_cell s)) = None ->
     st_reads s = [] /\ st_val s = 0).
Proof.
  split.
  - intros out_descs out_grid_cells outl inl samples grid channels i Hg Hc Hidx c.
    unfold c; simpl. rewrite nth_pack_cells by assumption.
    unfold pack_cell; rewrite Hidx; simpl. split; reflexivity.
  - intros OutputType inl samples grid_cells blocks blockIdx tx ty bdx bdy s
      block sample my_grid_cells Hs Hnull.
    pose proof (thread_scan_steps OutputType inl my_grid_cells
                  (Z.to_nat (v1 (cell_counts sample))) (out_pitch sample) block
                  tx ty bdx bdy) as Hall.
    rewrite Forall_forall in Hall. specialize (Hall s Hs).
    destruct s as [y x k rd a v]; simpl in *.
    unfold paste_pixel in Hall. rewrite Hnull in Hall.
    injection Hall; intros; subst; split; reflexivity.
Qed.

Definition ex_grid_input : list GridCellInput :=
  [{| input_idx := -1; gi_cell_start := mk2 0 0; gi_cell_end := mk2 2 2;
      gi_in_anchor := mk2 0 0 |}].

Lemma background_cell_never_read_witness :
  cin (nth 0%nat (snd (CreateSampleDescriptors [] [default_cell] ex_inputs ex_inputs []
                     ex_grid_input 3)) default_cell) = None /\
  Forall (fun s => cin (cell_at ex_cells (st_cell s)) = None -> st_val s = 0)
    (PasteKernel DALI_UINT8 ex_inputs ex_samples ex_cells ex_blocks 0 0 0 1 1).
Proof.
  split.
  - exact (proj1 (proj1 background_cell_never_read [] [default_cell] ex_inputs ex_inputs []
                    ex_grid_input 3 0%nat ltac:(simpl; lia) ltac:(simpl; lia) eq_refl)).
  - apply Forall_forall. intros s Hs Hnull.
    exact (proj2 (proj2 background_cell_never_read DALI_UINT8 ex_inputs ex_samples ex_cells
                    ex_blocks 0%nat 0 0 1 1 s Hs Hnull)).
Defined.

(* ------------------------------------------------------------------ *)
(** * Claims about PasteGPU::Setup and PasteGPU::Run *)

Lemma channels_equal_spec : forall inl,
  channels_equal inl = true <->
  (forall i, (i < length inl)%nat ->
     shape_at (nth i inl default_tensor) 2 = shape_at (nth 0 inl default_tensor) 2).
Proof.
  intros inl. unfold channels_equal. rewrite forallb_forall. split.
  - intros Hall i Hi. apply Z.eqb_eq, Hall, nth_In, Hi.
  - intros Hall t Ht. apply (In_nth _ _ default_tensor) in Ht as [n [Hn <-]].
    apply Z.eqb_eq, Hall, Hn.
Qed.

Lemma channels_equal_shapes : forall inl inl',
  map tshape inl' = map tshape inl -> channels_equal inl' = channels_equal inl.
Proof.
  intros inl inl' Hsh. unfold channels_equal, shape_at.
  assert (Href : tshape (nth 0 inl' default_tensor) = tshape (nth 0 inl default_tensor)).
  { rewrite <- (map_nth tshape inl'), <- (map_nth tshape inl), Hsh. reflexivity. }
  rewrite Href. generalize (nth 2 (tshape (nth 0 inl default_tensor)) 0) as ref.
  intros ref. clear Href. revert inl Hsh.
  induction inl' as [|t ts IH]; intros [|u us] Hsh; simpl in *; try discriminate; [reflexivity|].
  injection Hsh as Ht Hts. rewrite Ht, (IH us Hts). reflexivity.
Qed.

Lemma forallb_false_exists : forall {A} (f : A -> bool) l,
  forallb f l = false -> exists x, In x l /\ f x = false.
Proof.
  intros A f l; induction l as [|a l IH]; simpl; [discriminate|].
  destruct (f a) eqn:E; simpl.
  - intros H; destruct (IH H) as [x [Hx Hfx]]; eauto.
  - intros _; eauto.
Qed.

(** C8: [Setup] raises its error exactly when some sample's channel count
    (last extent) differs from the first sample's; the check is the first
    thing [Setup] does, so a failing call yields no requirements and no
    updated object, and no packing (done only by [Run]) or launch has
    happened.  With equal channel counts it returns requirements. *)
Theorem Setup_fails_iff_channel_mismatch :
  forall sizeof_SampleDesc sizeof_GridCellDesc sizeof_BlockDesc SetupBlocks
         self inl samples grid_cells out_shape,
  let r := Setup sizeof_SampleDesc sizeof_GridCellDesc sizeof_BlockDesc SetupBlocks
             self inl samples grid_cells out_shape in
  ((exists msg, r = Datatypes.inl msg) <->
   (exists i, (i < length inl)%nat /\
      shape_at (nth i inl default_tensor) 2 <> shape_at (nth 0 inl default_tensor) 2)) /\
  ((forall i, (i < length inl)%nat ->
      shape_at (nth i inl default_tensor) 2 = shape_at (nth 0 inl default_tensor) 2) ->
   exists req self', r = Datatypes.inr (req, self')).
Proof.
  intros szS szG szB SetupBlocks self inl samples grid_cells out_shape r.
  pose proof (channels_equal_spec inl) as Hspec.
  unfold r, Setup. split.
  - destruct (channels_equal inl) eqn:E; simpl.
    + split; [intros [msg Hmsg]; discriminate|].
      intros [i [Hi Hne]]. exfalso. apply Hne, (proj1 Hspec eq_refl i Hi).
    + split; [intros _|intros _; eexists; reflexivity].
      unfold channels_equal in E. apply forallb_false_exists in E as [t [Ht Hf]].
      apply (In_nth _ _ default_tensor) in Ht as [i [Hi Hnth]].
      exists i; split; [exact Hi|]. rewrite Hnth. apply Z.eqb_neq, Hf.
  - intros Hall. apply Hspec in Hall. rewrite Hall. simpl. eexists; eexists; reflexivity.
Qed.

Lemma Setup_fails_iff_channel_mismatch_witness :
  exists req self',
    Setup 48 80 20 (fun _ => ex_blocks) {| sample_descriptors_ := []; grid_cell_descriptors_ := [];
                                          blocks_ := [] |}
      ex_inputs [] [] [] = Datatypes.inr (req, self').
Proof.
  apply (proj2 (Setup_fails_iff_channel_mismatch 48 80 20 (fun _ => ex_blocks)
                  {| sample_descriptors_ := []; grid_cell_descriptors_ := []; blocks_ := [] |}
                  ex_inputs [] [] [])).
  intros i Hi. simpl in Hi. destruct i as [|i]; [reflexivity | lia].
Defined.

(** C9: a successful [Setup] for [N] samples and [M] grid cells requests
    [sizeof(SampleDesc) * N], [sizeof(GridCellDesc) * M] and
    [sizeof(BlockDesc) * (number of blocks)] bytes of GPU scratch, the
    blocks being those of the flattened output shape; the result depends
    on the input batch only through its shapes, not on any pixel. *)
Theorem Setup_scratch_sizes :
  forall sizeof_SampleDesc sizeof_GridCellDesc sizeof_BlockDesc SetupBlocks
         self inl samples grid_cells out_shape req self',
  Setup sizeof_SampleDesc sizeof_GridCellDesc sizeof_BlockDesc SetupBlocks
    self inl samples grid_cells out_shape = Datatypes.inr (req, self') ->
  scratch_sizes req =
    [{| alloc := GPU; nbytes := sizeof_SampleDesc * Z.of_nat (length samples) |};
     {| alloc := GPU; nbytes := sizeof_GridCellDesc * Z.of_nat (length grid_cells) |};
     {| alloc := GPU; nbytes := sizeof_BlockDesc * Z.of_nat (length (blocks_ self')) |}] /\
  blocks_ self' = SetupBlocks (map collapse_dim1 out_shape) /\
  (forall inl', map tshape inl' = map tshape inl ->
     Setup sizeof_SampleDesc sizeof_GridCellDesc sizeof_BlockDesc SetupBlocks
       self inl' samples grid_cells out_shape = Datatypes.inr (req, self')).
Proof.
  intros szS szG szB SetupBlocks self inl samples grid_cells out_shape req self' HS.
  assert (Hpure : forall inl', map tshape inl' = map tshape inl ->
            Setup szS szG szB SetupBlocks self inl' samples grid_cells out_shape
            = Setup szS szG szB SetupBlocks self inl samples grid_cells out_shape).
  { intros inl' Hsh. unfold Setup. rewrite (channels_equal_shapes inl inl' Hsh). reflexivity. }
  unfold Setup in HS.
  destruct (channels_equal inl) eqn:E; simpl in HS; [|discriminate].
  injection HS as Hreq Hself. subst req self'. simpl.
  split; [reflexivity|]. split; [reflexivity|].
  intros inl' Hsh. rewrite (Hpure inl' Hsh). unfold Setup. rewrite E. reflexivity.
Qed.

Lemma Setup_scratch_sizes_witness :
  scratch_sizes (fst (match Setup 48 80 20 (fun _ => ex_blocks)
                         {| sample_descriptors_ := []; grid_cell_descriptors_ := [];
                            blocks_ := [] |} ex_inputs [] [] [] with
                      | Datatypes.inr p => p
                      | Datatypes.inl _ => ({| scratch_sizes := [] |}, ex_self0) end))
  = [{| alloc := GPU; nbytes := 0 |}; {| alloc := GPU; nbytes := 0 |};
     {| alloc := GPU; nbytes := 20 |}].
Proof.
  exact (proj1 (Setup_scratch_sizes 48 80 20 (fun _ => ex_blocks)
                  {| sample_descriptors_ := []; grid_cell_descriptors_ := []; blocks_ := [] |}
                  ex_inputs [] [] [] {| scratch_sizes := _ |} _ eq_refl)).
Defined.

(** A batch of one single-channel 2 x 2 image, pasted whole onto a
    single-channel 2 x 2 canvas through one grid cell. *)
Definition ex_gray : list Tensor := [{| tshape := [2; 2; 1]; tdata := [1; 2; 3; 4] |}].

Definition ex_gray_samples : list MultiPasteSampleInput :=
  [{| si_grid_cell_start_idx := 0; si_cell_counts := mk2 1 1 |}].

Definition ex_gray_grid : list GridCellInput :=
  [{| input_idx := 0; gi_cell_start := mk2 0 0; gi_cell_end := mk2 2 2;
      gi_in_anchor := mk2 0 0 |}].

(** C4: [Run] packs with the channel count 3 whatever the batch's channel
    count is: for a single-channel batch of width 2 the output row pitch
    becomes 6 instead of 2 * 1, and the cell's column end 6 instead of 2. *)
Theorem Run_packs_three_channels :
  let self' := Run ex_self0 ex_gray ex_gray ex_gray_samples ex_gray_grid in
  let W := shape_at (nth 0 ex_gray default_tensor) 1 in
  let C := shape_at (nth 0 ex_gray default_tensor) 2 in
  C = 1 /\ channels_equal ex_gray = true /\
  v1 (out_pitch (nth 0 (sample_descriptors_ self') default_sample)) = 6 /\
  W * C = 2 /\
  v1 (cell_end (nth 0 (grid_cell_descriptors_ self') default_cell)) = 6 /\
  v1 (in_pitch (nth 0 (grid_cell_descriptors_ self') default_cell)) = 6.
Proof. vm_compute. repeat split. Qed.

(* ------------------------------------------------------------------ *)
(** * MultiPasteCpu::RunImpl *)

Section Pastes.
Variable OutputType : DALIDataType.
Variable out_sh : list Z.
Variable images : list Tensor.

  (** After a sequence of pastes an element holds the value of the last
      iteration covering it, or its value before them. *)
Lemma run_pastes_last_cover : forall l st e,
    run_pastes OutputType out_sh images l st e =
    match rev (filter (fun it => covers out_sh it e) l) with
    | [] => st e
    | it :: _ => paste_value OutputType out_sh images it e
    end.
  Proof.
    intros l; induction l as [|a l IH] using rev_ind; intros st e; [reflexivity|].
    unfold run_pastes in *. rewrite fold_left_app, filter_app, rev_app_distr. simpl.
    unfold paste_cpu at 1. destruct (covers out_sh a e); simpl; [reflexivity|].
    apply IH.
  Qed.

Lemma covers_overlap : forall a b e,
    covers out_sh a e = true -> covers out_sh b e = true -> rect_overlap a b = true.
  Proof.
    intros a b e Ha Hb. unfold covers in Ha, Hb. unfold rect_overlap.
    repeat rewrite andb_true_iff in *; repeat rewrite Z.leb_le in *;
      repeat rewrite Z.ltb_lt in *. lia.
  Qed.
End Pastes.

Lemma no_intersections_spec : forall l,
  no_intersections l = true <-> ForallOrdPairs (fun a b => rect_overlap a b = false) l.
Proof.
  induction l as [|a l IH]; simpl.
  - split; intros; [constructor | reflexivity].
  - rewrite andb_true_iff, forallb_forall, IH. split.
    + intros [Hall Hl]. constructor; [|exact Hl].
      apply Forall_forall. intros b Hb. apply negb_true_iff, Hall, Hb.
    + intros Hfop. inversion Hfop as [|? ? Hf Hl]; subst. split; [|exact Hl].
      intros b Hb. apply negb_true_iff. exact (proj1 (Forall_forall _ _) Hf b Hb).
Qed.

Lemma ForallOrdPairs_app_across : forall {A} (R : A -> A -> Prop) l1 l2,
  ForallOrdPairs R (l1 ++ l2) -> forall a b, In a l1 -> In b l2 -> R a b.
Proof.
  intros A R l1; induction l1 as [|x l1 IH]; intros l2 H a b Ha Hb; [destruct Ha|].
  inversion H as [|? ? Hf Hl]; subst. destruct Ha as [<-|Ha].
  - rewrite Forall_forall in Hf. apply Hf, in_or_app; right; exact Hb.
  - exact (IH l2 Hl a b Ha Hb).
Qed.

Lemma filter_none : forall {A} (f : A -> bool) l,
  (forall x, In x l -> f x = false) -> filter f l = [].
Proof.
  intros A f l; induction l as [|a l IH]; intros H; simpl; [reflexivity|].
  rewrite (H a (or_introl eq_refl)). apply IH. intros x Hx; apply H; right; exact Hx.
Qed.

Lemma Permutation_filter_of : forall {A} (f : A -> bool) l l',
  Permutation l l' -> Permutation (filter f l) (filter f l').
Proof.
  intros A f l l' Hp; induction Hp as [|x l l' Hp IH|x y l|l l' l'' H1 IH1 H2 IH2]; simpl.
  - constructor.
  - destruct (f x); [constructor|]; exact IH.
  - destruct (f x), (f y); try constructor; apply Permutation_refl.
  - exact (Permutation_trans IH1 IH2).
Qed.

Lemma disjoint_covers_at_most_one : forall out_sh e l,
  ForallOrdPairs (fun a b => rect_overlap a b = false) l ->
  (length (filter (fun it => covers out_sh it e) l) <= 1)%nat.
Proof.
  intros out_sh e l H; induction H as [|a l Hf Hl IH]; simpl; [lia|].
  destruct (covers out_sh a e) eqn:Ca; [|exact IH].
  rewrite filter_none; [simpl; lia|].
  intros b Hb. rewrite Forall_forall in Hf. specialize (Hf b Hb).
  destruct (covers out_sh b e) eqn:Cb; [|reflexivity].
  rewrite (covers_overlap out_sh a b e Ca Cb) in Hf; discriminate.
Qed.

(** C6: when the destination rectangles of a sample's iterations are
    pairwise non-overlapping, [RunImpl] dispatches them as separate work
    items, and whatever order the pool runs them in (any permutation of the
    list) the canvas equals the one obtained by running them in list
    order. *)
Theorem disjoint_pastes_order_independent :
  forall OutputType out_sh images iters dispatch prior,
  ForallOrdPairs (fun a b => rect_overlap a b = false) iters ->
  Permutation dispatch iters ->
  forall e,
    RunImpl_sample OutputType out_sh images iters dispatch prior e =
    run_pastes OutputType out_sh images iters
      (memset_zero (type_size OutputType) (nth 0 out_sh 0 * nth 1 out_sh 0 * nth 2 out_sh 0)
                   prior) e.
Proof.
  intros OutputType out_sh images iters dispatch prior Hdisj Hperm e.
  unfold RunImpl_sample. rewrite (proj2 (no_intersections_spec iters) Hdisj).
  rewrite !run_pastes_last_cover.
  assert (Hf : filter (fun it => covers out_sh it e) dispatch
               = filter (fun it => covers out_sh it e) iters).
  { pose proof (Permutation_filter_of (fun it => covers out_sh it e) _ _ Hperm) as Hp.
    pose proof (disjoint_covers_at_most_one out_sh e iters Hdisj) as Hlen.
    destruct (filter (fun it => covers out_sh it e) iters) as [|a [|b rest]];
      simpl in Hlen; [ apply Permutation_nil, Permutation_sym, Hp
                     | apply Permutation_length_1_inv, Permutation_sym, Hp | lia ]. }
  rewrite Hf. reflexivity.
Qed.

(** Two single-pixel pastes into the two pixels of a 1 x 2 canvas. *)
Definition ex_px (k : nat) (x : Z) : PasteIter :=
  {| from_sample := k; it_in_anchor := mk2 0 0; it_shape := mk2 1 1; it_out_anchor := mk2 0 x |}.

Definition ex_px_images : list Tensor :=
  [{| tshape := [1; 1; 1]; tdata := [1] |}; {| tshape := [1; 1; 1]; tdata := [2] |};
   {| tshape := [1; 1; 1]; tdata := [3] |}].

Lemma disjoint_pastes_order_independent_witness :
  RunImpl_sample DALI_UINT8 [1; 2; 1] ex_px_images [ex_px 0 0; ex_px 1 1]
    [ex_px 1 1; ex_px 0 0] (fun _ => 9) 1 =
  run_pastes DALI_UINT8 [1; 2; 1] ex_px_images [ex_px 0 0; ex_px 1 1]
    (memset_zero 1 2 (fun _ => 9)) 1.
Proof.
  apply (disjoint_pastes_order_independent DALI_UINT8 [1; 2; 1] ex_px_images
           [ex_px 0 0; ex_px 1 1] [ex_px 1 1; ex_px 0 0] (fun _ => 9)).
  - repeat constructor.
  - apply perm_swap.
Defined.

(** C5, as stated, fails: of three iterations covering the same pixel,
    the second is overwritten by the third, so the pixel does not hold the
    value of the later of the first two. *)
Lemma later_paste_wins_counterexample :
  let its := [ex_px 0 0; ex_px 1 0; ex_px 2 0] in
  rect_overlap (ex_px 0 0) (ex_px 1 0) = true /\
  covers [1; 1; 1] (ex_px 0 0) 0 = true /\ covers [1; 1; 1] (ex_px 1 0) 0 = true /\
  RunImpl_sample DALI_UINT8 [1; 1; 1] ex_px_images its its (fun _ => 0) 0 = 3 /\
  paste_value DALI_UINT8 [1; 1; 1] ex_px_images (ex_px 1 0) 0 = 2.
Proof. vm_compute. repeat split. Qed.

(** C5 (amended): if iteration [A] comes before iteration [B] in a sample's
    list and their destination rectangles overlap, the sample is run as
    one work item in list order, and every element [B] covers and no later
    iteration covers ends up holding [B]'s source value converted with
    saturation. *)
Theorem later_paste_wins :
  forall OutputType out_sh images pre post A B dispatch prior e,
  In A pre -> rect_overlap A B = true ->
  covers out_sh B e = true ->
  Forall (fun it => covers out_sh it e = false) post ->
  RunImpl_sample OutputType out_sh images (pre ++ B :: post) dispatch prior e =
  paste_value OutputType out_sh images B e.
Proof.
  intros OutputType out_sh images pre post A B dispatch prior e HA Hov HB Hpost.
  unfold RunImpl_sample.
  destruct (no_intersections (pre ++ B :: post)) eqn:E.
  - apply no_intersections_spec in E.
    pose proof (ForallOrdPairs_app_across _ pre (B :: post) E A B HA (or_introl eq_refl)) as H.
    simpl in H. congruence.
  - rewrite run_pastes_last_cover, filter_app. simpl. rewrite HB.
    rewrite (filter_none _ post); [|intros x Hx; exact (proj1 (Forall_forall _ _) Hpost x Hx)].
    rewrite rev_app_distr. reflexivity.
Qed.

Lemma later_paste_wins_witness :
  RunImpl_sample DALI_UINT8 [1; 1; 1] ex_px_images [ex_px 0 0; ex_px 1 0]
    [ex_px 0 0; ex_px 1 0] (fun _ => 0) 0 =
  paste_value DALI_UINT8 [1; 1; 1] ex_px_images (ex_px 1 0) 0.
Proof.
  apply (later_paste_wins DALI_UINT8 [1; 1; 1] ex_px_images [ex_px 0 0] [] (ex_px 0 0)
           (ex_px 1 0) [ex_px 0 0; ex_px 1 0] (fun _ => 0) 0).
  - left; reflexivity.
  - reflexivity.
  - reflexivity.
  - constructor.
Defined.

(** C3: [memset] is given the element count [H * W * C] as a byte count,
    so for a 1 x 2 x 1 [int32_t] canvas with an empty paste list only the
    first 2 of its 8 bytes are cleared and the second element keeps the
    value 7 the buffer held before. *)
Theorem empty_paste_list_int32_not_cleared :
  RunImpl_sample DALI_INT32 [1; 2; 1] ex_px_images [] [] (fun _ => 7) 1 = 7 /\
  RunImpl_sample DALI_UINT8 [1; 2; 1] ex_px_images [] [] (fun _ => 7) 1 = 0.
Proof. vm_compute. split; reflexivity. Qed.

(* ------------------------------------------------------------------ *)
(** * MultiPasteCpu::SetupImpl *)

Lemma out_shapes_nth : forall ts output_size i,
  (i < length ts)%nat ->
  length (out_shapes ts output_size) = length ts /\
  nth i (out_shapes ts output_size) [] =
    [nth 0 (nth i output_size []) 0; nth 1 (nth i output_size []) 0;
     shape_at (nth i ts default_tensor) 2].
Proof.
  assert (Hlen : forall ts output_size, length (out_shapes ts output_size) = length ts).
  { induction ts as [|t ts IH]; intros; simpl; [reflexivity | rewrite IH; reflexivity]. }
  induction ts as [|t ts IH]; intros output_size i Hi; simpl in Hi; [lia|].
  split; [apply Hlen|].
  destruct i as [|i]; simpl.
  - destruct output_size; reflexivity.
  - destruct (IH (tl output_size) i ltac:(lia)) as [_ ->].
    destruct output_size as [|o os]; simpl; [destruct i; reflexivity | reflexivity].
Qed.

(** C10, as stated, fails: a batch whose element type is outside the
    [TYPE_SWITCH] list (here [double]) gets no output declaration, the
    operator fails. *)
Lemma SetupImpl_declares_output_counterexample :
  SetupImpl DALI_NO_TYPE {| tl_tensors := [{| tshape := [2; 2; 3]; tdata := [] |}];
                            tl_type := DALI_FLOAT64 |} [[4; 4]]
  = Datatypes.inl "Unsupported input type"%string.
Proof. reflexivity. Qed.

(** C10 (amended): when the input type and the resolved output type (the
    [dtype] argument if set, the input type otherwise) are among uint8,
    int16, int32 and float, [SetupImpl] declares sample [i]'s output with
    shape [(output_size[i][0], output_size[i][1], C_i)] and that resolved
    type; otherwise it fails without a declaration. *)
Theorem SetupImpl_declares_output :
  forall output_type_arg images output_size,
  let output_type_ := resolve_output_type output_type_arg (tl_type images) in
  (output_type_ = (if dtype_eqb output_type_arg DALI_NO_TYPE then tl_type images
                   else output_type_arg)) /\
  (supported_type (tl_type images) = true -> supported_type output_type_ = true ->
   exists desc,
     SetupImpl output_type_arg images output_size = Datatypes.inr desc /\
     od_type desc = output_type_ /\
     length (od_shapes desc) = length (tl_tensors images) /\
     forall i, (i < length (tl_tensors images))%nat ->
       nth i (od_shapes desc) [] =
         [nth 0 (nth i output_size []) 0; nth 1 (nth i output_size []) 0;
          shape_at (nth i (tl_tensors images) default_tensor) 2]) /\
  (supported_type (tl_type images) = false \/ supported_type output_type_ = false ->
   exists msg, SetupImpl output_type_arg images output_size = Datatypes.inl msg).
Proof.
  intros output_type_arg images output_size output_type_.
  split; [unfold output_type_, resolve_output_type;
          destruct (dtype_eqb output_type_arg DALI_NO_TYPE); reflexivity|].
  split.
  - intros Hin Hout. unfold SetupImpl. fold output_type_. rewrite Hin, Hout. simpl.
    eexists; split; [reflexivity|]. simpl. split; [reflexivity|].
    destruct (tl_tensors images) as [|t ts] eqn:Ets.
    + split; [reflexivity|]. intros i Hi; simpl in Hi; lia.
    + split; [exact (proj1 (out_shapes_nth (t :: ts) output_size 0 ltac:(simpl; lia)))|].
      intros i Hi. exact (proj2 (out_shapes_nth (t :: ts) output_size i Hi)).
  - intros [Hin|Hout]; unfold SetupImpl; fold output_type_.
    + rewrite Hin. simpl. eexists; reflexivity.
    + destruct (supported_type (tl_type images)); simpl; rewrite ?Hout; simpl;
        eexists; reflexivity.
Qed.

Lemma SetupImpl_declares_output_witness :
  exists desc,
    SetupImpl DALI_NO_TYPE {| tl_tensors := ex_inputs; tl_type := DALI_UINT8 |} [[4; 4]]
      = Datatypes.inr desc /\ od_type desc = DALI_UINT8.
Proof.
  destruct (proj1 (proj2 (SetupImpl_declares_output DALI_NO_TYPE
                            {| tl_tensors := ex_inputs; tl_type := DALI_UINT8 |} [[4; 4]]))
              eq_refl eq_refl) as [desc [Hd [Ht _]]].
  exists desc; split; [exact Hd | exact Ht].
Defined.

(* ------------------------------------------------------------------ *)
(** * Further properties of the paste code *)

(** The loop of [pitch_flatten_channels]: from [i = ndim - 2] down to [1],
    [stride *= shape[i]; ret[ndim - 2 - i] = stride].  The result is listed
    from [ret[0]] on.  Extents are modelled as unbounded integers. *)
Fixpoint pfc_loop (shape : list Z) (i : nat) (stride : Z) : list Z :=
  match i with
  | O => []
  | S i' => let stride' := stride * nth i shape 0 in stride' :: pfc_loop shape i' stride'
  end.

(** [pitch_flatten_channels<ndim>]: the stride starts at the channel count
    [shape[ndim - 1]]. *)
Definition pitch_flatten_channels (shape : list Z) : list Z :=
  let ndim := length shape in
  pfc_loop shape (ndim - 2) (nth (ndim - 1) shape 0).

Definition prod (l : list Z) : Z := fold_right Z.mul 1 l.

Definition default_sample_input : MultiPasteSampleInput :=
  {| si_grid_cell_start_idx := 0; si_cell_counts := mk2 0 0 |}.

(** The output positions [(y, x)] a list of kernel visits writes. *)
Definition positions (l : list step) : list (Z * Z) := map (fun s => (st_y s, st_x s)) l.

Lemma firstn_S_last : forall (l : list Z) m,
  (m < length l)%nat -> firstn (S m) l = firstn m l ++ [nth m l 0].
Proof.
  induction l as [|a l IH]; intros m Hm; simpl in *; [lia|].
  destruct m as [|m]; [reflexivity|].
  simpl. rewrite IH by lia. reflexivity.
Qed.

Lemma nth_skipn_Z : forall (l : list Z) a m, nth m (skipn a l) 0 = nth (a + m) l 0.
Proof.
  induction l as [|x l IH]; intros a m.
  - rewrite skipn_nil. destruct m, (a + _)%nat; reflexivity.
  - destruct a as [|a]; [reflexivity|]. simpl. apply IH.
Qed.

Lemma prod_app : forall l1 l2, prod (l1 ++ l2) = prod l1 * prod l2.
Proof.
  unfold prod; induction l1 as [|a l1 IH]; intros l2; cbn [fold_right app]; [lia|].
  rewrite IH; lia.
Qed.

Lemma pfc_loop_length : forall shape i stride, length (pfc_loop shape i stride) = i.
Proof. induction i; intros; simpl; [reflexivity | rewrite IHi; reflexivity]. Qed.

Lemma pfc_loop_nth : forall shape i stride k,
  (k < i)%nat -> (i < length shape)%nat ->
  nth k (pfc_loop shape i stride) 0 = stride * prod (firstn (S k) (skipn (i - k) shape)).
Proof.
  intros shape i; induction i as [|i IH]; intros stride k Hk Hi; [lia|].
  destruct k as [|k].
  - simpl pfc_loop. rewrite Nat.sub_0_r. cbn [nth].
    rewrite (firstn_S_last (skipn (S i) shape) 0) by (rewrite length_skipn; lia).
    rewrite nth_skipn_Z. simpl. unfold prod; simpl. rewrite Nat.add_0_r. lia.
  - simpl pfc_loop. cbn [nth]. rewrite IH by lia.
    replace (S i - S k)%nat with (i - k)%nat by lia.
    rewrite (firstn_S_last (skipn (i - k) shape) (S k)) by (rewrite length_skipn; lia).
    rewrite prod_app, nth_skipn_Z. unfold prod at 3; simpl.
    replace (i - k + S k)%nat with (S i) by lia. lia.
Qed.

Lemma length_resize : forall {A} n (l : list A) d, length (resize n l d) = n.
Proof.
  intros A n l d. unfold resize. rewrite length_app, repeat_length, length_firstn. lia.
Qed.

Lemma length_pack_samples : forall descs samples outl n channels,
  (length samples <= length descs)%nat ->
  length (pack_samples descs samples outl n channels) = length descs.
Proof.
  induction descs as [|d ds IH]; intros samples outl n channels H; destruct samples; simpl in *;
    try reflexivity; try lia.
  rewrite IH by lia. reflexivity.
Qed.

Lemma length_pack_cells : forall cells grid inl channels,
  (length grid <= length cells)%nat ->
  length (pack_cells cells grid inl channels) = length cells.
Proof.
  induction cells as [|c cs IH]; intros grid inl channels H; destruct grid; simpl in *;
    try reflexivity; try lia.
  rewrite IH by lia. reflexivity.
Qed.

Lemma nth_pack_samples_tail : forall descs samples outl n channels i,
  (length samples <= i)%nat ->
  nth i (pack_samples descs samples outl n channels) default_sample = nth i descs default_sample.
Proof.
  induction descs as [|d ds IH]; intros samples outl n channels i H.
  - destruct samples; simpl; destruct i; reflexivity.
  - destruct samples as [|x xs]; simpl in *; [reflexivity|].
    destruct i as [|i]; [lia|]. apply IH; lia.
Qed.

Lemma nth_pack_cells_tail : forall cells grid inl channels i,
  (length grid <= i)%nat ->
  nth i (pack_cells cells grid inl channels) default_cell = nth i cells default_cell.
Proof.
  induction cells as [|c cs IH]; intros grid inl channels i H.
  - destruct grid; simpl; destruct i; reflexivity.
  - destruct grid as [|x xs]; simpl in *; [reflexivity|].
    destruct i as [|i]; [lia|]. apply IH; lia.
Qed.

(** The columns a thread visits in one row: [x0], [x0 + bdx], ... below
    [end_x]. *)
Lemma col_loop_positions : forall OutputType inl cells ncols pitch block bdx n y gy gx x p,
  0 < bdx ->
  In p (positions (col_loop OutputType inl cells ncols pitch block bdx n y gy gx x)) <->
  exists j, (j < n)%nat /\ x + Z.of_nat j * bdx < end_x block /\ p = (y, x + Z.of_nat j * bdx).
Proof.
  intros OutputType inl cells ncols pitch block bdx n.
  induction n as [|n IH]; intros y gy gx x p Hb; simpl.
  - split; [intros []|intros [j [Hj _]]; lia].
  - destruct (x <? end_x block) eqn:Ex.
    + apply Z.ltb_lt in Ex. simpl.
      destruct (paste_pixel_pos OutputType inl cells pitch y x
        (gy * ncols + adv (fuel cells) (fun g => v1 (cell_end (cell_at cells (gy * ncols + g)))) x gx))
        as [Hy [Hx _]].
      rewrite Hy, Hx. rewrite IH by exact Hb. split.
      * intros [<-|[j [Hj [Hl ->]]]].
        -- exists 0%nat. split; [lia|]. split; [lia|]. f_equal; lia.
        -- exists (S j). split; [lia|]. split; [lia|]. f_equal; lia.
      * intros [j [Hj [Hl ->]]]. destruct j as [|j].
        -- left. f_equal; lia.
        -- right. exists j. split; [lia|]. split; [lia|]. f_equal; lia.
    + apply Z.ltb_ge in Ex. split; [intros []|].
      intros [j [Hj [Hl _]]]. nia.
Qed.

(** The rows a thread visits: [y0], [y0 + bdy], ... below [end_y]. *)
Lemma row_loop_positions : forall OutputType inl cells ncols pitch block tx bdx bdy n y gy mgx p,
  0 < bdx -> 0 < bdy ->
  In p (positions (row_loop OutputType inl cells ncols pitch block tx bdx bdy n y gy mgx)) <->
  exists i j, (i < n)%nat /\ y + Z.of_nat i * bdy < end_y block /\
    (j < Z.to_nat (end_x block - (tx + start_x block)))%nat /\
    tx + start_x block + Z.of_nat j * bdx < end_x block /\
    p = (y + Z.of_nat i * bdy, tx + start_x block + Z.of_nat j * bdx).
Proof.
  intros OutputType inl cells ncols pitch block tx bdx bdy n.
  induction n as [|n IH]; intros y gy mgx p Hbx Hby; simpl.
  - split; [intros []|intros [i [j [Hi _]]]; lia].
  - destruct (y <? end_y block) eqn:Ey.
    + apply Z.ltb_lt in Ey. unfold positions. rewrite map_app, in_app_iff.
      fold (positions (col_loop OutputType inl cells ncols pitch block bdx
        (Z.to_nat (end_x block - (tx + start_x block))) y
        (adv (fuel cells) (fun g => v0 (cell_end (cell_at cells (g * ncols)))) y gy) mgx
        (tx + start_x block))).
      fold (positions (row_loop OutputType inl cells ncols pitch block tx bdx bdy n (y + bdy)
        (adv (fuel cells) (fun g => v0 (cell_end (cell_at cells (g * ncols)))) y gy) mgx)).
      rewrite col_loop_positions, IH by assumption. split.
      * intros [[j [Hj [Hl ->]]]|[i [j [Hi [Hli [Hj [Hlj ->]]]]]]].
        -- exists 0%nat, j. repeat split; try lia. f_equal; lia.
        -- exists (S i), j. repeat split; try lia. f_equal; lia.
      * intros [i [j [Hi [Hli [Hj [Hlj ->]]]]]]. destruct i as [|i].
        -- left. exists j. repeat split; try lia. f_equal; lia.
        -- right. exists i, j. repeat split; try lia. f_equal; lia.
    + apply Z.ltb_ge in Ey. split; [intros []|].
      intros [i [j [Hi [Hli _]]]]. nia.
Qed.

(** A thread visits the columns of one row in increasing order. *)
Lemma col_loop_increasing : forall OutputType inl cells ncols pitch block bdx n y gy gx x,
  0 < bdx ->
  Forall (fun s => st_y s = y /\ x <= st_x s)
    (col_loop OutputType inl cells ncols pitch block bdx n y gy gx x) /\
  NoDup (positions (col_loop OutputType inl cells ncols pitch block bdx n y gy gx x)).
Proof.
  intros OutputType inl cells ncols pitch block bdx n.
  induction n as [|n IH]; intros y gy gx x Hb; simpl; [split; constructor|].
  destruct (x <? end_x block); [|split; constructor].
  destruct (IH y gy (adv (fuel cells) (fun g => v1 (cell_end (cell_at cells (gy * ncols + g)))) x gx)
              (x + bdx) Hb) as [Hf Hnd].
  destruct (paste_pixel_pos OutputType inl cells pitch y x
    (gy * ncols + adv (fuel cells) (fun g => v1 (cell_end (cell_at cells (gy * ncols + g)))) x gx))
    as [Hy [Hx _]].
  split.
  - constructor; [lia|]. eapply Forall_impl; [|exact Hf]. simpl; intros s [? ?]; split; lia.
  - simpl. constructor; [|exact Hnd]. rewrite Hy, Hx. intros Hin.
    unfold positions in Hin. apply in_map_iff in Hin. destruct Hin as [s [Hs Hin]].
    rewrite Forall_forall in Hf. destruct (Hf s Hin) as [_ Hle].
    injection Hs as _ Hsx. lia.
Qed.

(** A thread visits every output position of its block at most once. *)
Lemma row_loop_nodup : forall OutputType inl cells ncols pitch block tx bdx bdy n y gy mgx,
  0 < bdx -> 0 < bdy ->
  Forall (fun s => y <= st_y s)
    (row_loop OutputType inl cells ncols pitch block tx bdx bdy n y gy mgx) /\
  NoDup (positions (row_loop OutputType inl cells ncols pitch block tx bdx bdy n y gy mgx)).
Proof.
  intros OutputType inl cells ncols pitch block tx bdx bdy n.
  induction n as [|n IH]; intros y gy mgx Hbx Hby; simpl; [split; constructor|].
  destruct (y <? end_y block); [|split; constructor].
  set (gy' := adv (fuel cells) (fun g => v0 (cell_end (cell_at cells (g * ncols)))) y gy).
  destruct (col_loop_increasing OutputType inl cells ncols pitch block bdx
              (Z.to_nat (end_x block - (tx + start_x block))) y gy' mgx (tx + start_x block) Hbx)
    as [Hc Hcnd].
  destruct (IH (y + bdy) gy' mgx Hbx Hby) as [Hr Hrnd].
  split.
  - apply Forall_app; split.
    + eapply Forall_impl; [|exact Hc]. simpl; intros s [-> _]; lia.
    + eapply Forall_impl; [|exact Hr]. simpl; intros; lia.
  - unfold positions; rewrite map_app. apply NoDup_app; [exact Hcnd | exact Hrnd|].
    intros [a b] Ha Hb. apply in_map_iff in Ha, Hb.
    destruct Ha as [s [Hs Hin]]; destruct Hb as [s' [Hs' Hin']].
    rewrite Forall_forall in Hc, Hr.
    destruct (Hc s Hin) as [Hsy _]. specialize (Hr s' Hin').
    injection Hs as Hs1 _; injection Hs' as Hs1' _. lia.
Qed.

Lemma run_pastes_uncovered : forall OutputType out_sh images l st e,
  Forall (fun it => covers out_sh it e = false) l ->
  run_pastes OutputType out_sh images l st e = st e.
Proof.
  intros OutputType out_sh images l; unfold run_pastes.
  induction l as [|a l IH]; intros st e Hl; simpl; [reflexivity|].
  inversion Hl as [|? ? Ha Hl']; subst.
  rewrite IH by exact Hl'. unfold paste_cpu. rewrite Ha. reflexivity.
Qed.

Lemma covers_in_canvas : forall out_sh it e,
  covers out_sh it e = true -> 0 <= e < nth 0 out_sh 0 * nth 1 out_sh 0 * nth 2 out_sh 0.
Proof.
  intros out_sh it e H. unfold covers in H.
  repeat rewrite andb_true_iff in H; rewrite Z.leb_le, Z.ltb_lt in H. lia.
Qed.

(* ------------------------------------------------------------------ *)
(** * Packing, the kernel's thread split and RunImpl's writes *)

(** [pitch_flatten_channels] returns [ndim - 2] strides, [ret[k]] being
    the product of the extents from [ndim - 2 - k] to the channel axis: the
    pitch, in elements, of dimension [ndim - 3 - k] once channels are
    merged into the innermost dimension ([ret[0] = W * C] for HWC). *)
Theorem pitch_flatten_channels_strides : forall shape,
  length (pitch_flatten_channels shape) = (length shape - 2)%nat /\
  forall k, (k < length shape - 2)%nat ->
    nth k (pitch_flatten_channels shape) 0 = prod (skipn (length shape - 2 - k) shape).
Proof.
  intros shape. unfold pitch_flatten_channels. split; [apply pfc_loop_length|].
  intros k Hk. rewrite pfc_loop_nth by lia.
  set (sfx := skipn (length shape - 2 - k) shape).
  assert (Hl : length sfx = S (S k)) by (unfold sfx; rewrite length_skipn; lia).
  rewrite <- (firstn_all2 sfx (n := S (S k))) at 2 by lia.
  rewrite (firstn_S_last sfx (S k)) by lia.
  rewrite prod_app. unfold sfx at 3. rewrite nth_skipn_Z.
  replace (length shape - 2 - k + S k)%nat with (length shape - 1)%nat by lia.
  unfold prod at 3. cbn [fold_right]. lia.
Qed.

Lemma pitch_flatten_channels_strides_witness :
  nth 1 (pitch_flatten_channels [2; 3; 4; 5]) 0 = 60.
Proof.
  rewrite (proj2 (pitch_flatten_channels_strides [2; 3; 4; 5]) 1%nat) by (simpl; lia).
  reflexivity.
Defined.

(** The first loop of [CreateSampleDescriptors], given at least as many
    descriptors as samples: descriptor [i] of sample [i] points at output
    [i], copies the sample's first grid cell index and cell counts, and has
    row pitch [out[i].shape[1] * channels] ([out_pitch[0]] keeps its old
    value); descriptors past the samples and the array length are left as
    they were. *)
Theorem CreateSampleDescriptors_sample_descs :
  forall out_descs out_grid_cells outl inl samples grid channels,
  (length samples <= length out_descs)%nat ->
  let descs := fst (CreateSampleDescriptors out_descs out_grid_cells outl inl samples grid
                      channels) in
  length descs = length out_descs /\
  (forall i, (i < length samples)%nat ->
     nth i descs default_sample =
       {| sout := Some i;
          grid_cell_start_idx := si_grid_cell_start_idx (nth i samples default_sample_input);
          cell_counts := si_cell_counts (nth i samples default_sample_input);
          out_pitch := mk2 (v0 (out_pitch (nth i out_descs default_sample)))
                           (shape_at (nth i outl default_tensor) 1 * channels) |}) /\
  (forall i, (length samples <= i)%nat -> nth i descs default_sample = nth i out_descs default_sample).
Proof.
  intros out_descs out_grid_cells outl inl samples grid channels Hlen descs.
  unfold descs, CreateSampleDescriptors; simpl. split; [|split].
  - apply length_pack_samples; exact Hlen.
  - intros i Hi. rewrite nth_pack_samples by lia. reflexivity.
  - intros i Hi. apply nth_pack_samples_tail; exact Hi.
Qed.

Lemma CreateSampleDescriptors_sample_descs_witness :
  (length ex_gray_samples <= length [default_sample; default_sample])%nat /\
  length (fst (CreateSampleDescriptors [default_sample; default_sample] [] ex_gray ex_gray
                 ex_gray_samples [] 1)) = 2%nat.
Proof.
  split; [simpl; lia|].
  exact (proj1 (CreateSampleDescriptors_sample_descs [default_sample; default_sample] []
                  ex_gray ex_gray ex_gray_samples [] 1 ltac:(simpl; lia))).
Defined.

(** The second loop of [CreateSampleDescriptors], given at least as many
    cell descriptors as grid cells: a cell [i] whose [input_idx] is not
    [-1] points at that input's data, has its column coordinates (start,
    end, anchor) multiplied by [channels] and its row coordinates kept, and
    its whole [in_pitch] scaled by [channels] after [in_pitch[1]] is set to
    the input's width; descriptors past the grid and the array length are
    left as they were. *)
Theorem CreateSampleDescriptors_grid_cells :
  forall out_descs out_grid_cells outl inl samples grid channels,
  (length grid <= length out_grid_cells)%nat ->
  let cells := snd (CreateSampleDescriptors out_descs out_grid_cells outl inl samples grid
                      channels) in
  length cells = length out_grid_cells /\
  (forall i, (i < length grid)%nat ->
     let g := nth i grid default_grid_input in
     let c := nth i cells default_cell in
     input_idx g <> -1 ->
     cin c = Some (Z.to_nat (input_idx g)) /\
     cell_start c = mk2 (v0 (gi_cell_start g)) (v1 (gi_cell_start g) * channels) /\
     cell_end c = mk2 (v0 (gi_cell_end g)) (v1 (gi_cell_end g) * channels) /\
     in_anchor c = mk2 (v0 (gi_in_anchor g)) (v1 (gi_in_anchor g) * channels) /\
     in_pitch c = mk2 (v0 (in_pitch (nth i out_grid_cells default_cell)) * channels)
                      (shape_at (nth (Z.to_nat (input_idx g)) inl default_tensor) 1 * channels)) /\
  (forall i, (length grid <= i)%nat -> nth i cells default_cell = nth i out_grid_cells default_cell).
Proof.
  intros out_descs out_grid_cells outl inl samples grid channels Hlen cells.
  unfold cells, CreateSampleDescriptors; simpl. split; [|split].
  - apply length_pack_cells; exact Hlen.
  - intros i Hi. cbv zeta. intros Hg. rewrite nth_pack_cells by lia.
    unfold pack_cell. destruct (input_idx (nth i grid default_grid_input) =? -1) eqn:E;
      [apply Z.eqb_eq in E; contradiction|].
    repeat split.
  - intros i Hi. apply nth_pack_cells_tail; exact Hi.
Qed.

Lemma CreateSampleDescriptors_grid_cells_witness :
  (length ex_gray_grid <= length [default_cell])%nat /\
  cin (nth 0 (snd (CreateSampleDescriptors [] [default_cell] ex_gray ex_gray [] ex_gray_grid 1))
         default_cell) = Some 0%nat.
Proof.
  split; [simpl; lia|].
  destruct (CreateSampleDescriptors_grid_cells [] [default_cell] ex_gray ex_gray [] ex_gray_grid 1
              ltac:(simpl; lia)) as [_ [Hc _]].
  exact (proj1 (Hc 0%nat ltac:(simpl; lia) ltac:(simpl; lia))).
Defined.

(** Flattening the channels into the column axis keeps the HWC addressing:
    for a source cell packed with [channels] and an output row pitch packed
    with [channels], the kernel's visit of flattened column
    [px * channels + c] writes output element [(y * W + px) * channels + c]
    and reads source element [((y - start.y + anchor.y) * W_in
    + (px - start.x + anchor.x)) * channels + c]: pixel [px], channel [c]. *)
Theorem flattened_addressing :
  forall OutputType inl cells old_desc i cpu_sample out old_cell g channels y px c k,
  input_idx g <> -1 ->
  cell_at cells k = pack_cell old_cell g inl channels ->
  let pitch := out_pitch (pack_sample old_desc i cpu_sample out channels) in
  let W := shape_at out 1 in
  let Wi := shape_at (nth (Z.to_nat (input_idx g)) inl default_tensor) 1 in
  let s := paste_pixel OutputType inl cells pitch y (px * channels + c) k in
  st_addr s = (y * W + px) * channels + c /\
  st_reads s = [(Z.to_nat (input_idx g),
                 ((y - v0 (gi_cell_start g) + v0 (gi_in_anchor g)) * Wi
                  + (px - v1 (gi_cell_start g) + v1 (gi_in_anchor g))) * channels + c)].
Proof.
  intros OutputType inl cells old_desc i cpu_sample out old_cell g channels y px c k Hg Hk
    pitch W Wi s.
  unfold s, paste_pixel. rewrite Hk. unfold pack_cell.
  destruct (input_idx g =? -1) eqn:E; [apply Z.eqb_eq in E; contradiction|].
  unfold pitch, pack_sample; cbn. split.
  - unfold W. ring.
  - do 2 f_equal. unfold Wi, default_tensor. ring.
Qed.

Lemma flattened_addressing_witness :
  input_idx (nth 0 ex_gray_grid default_grid_input) <> -1 /\
  st_addr (paste_pixel DALI_UINT8 ex_gray
             [pack_cell default_cell (nth 0 ex_gray_grid default_grid_input) ex_gray 1]
             (out_pitch (pack_sample default_sample 0 default_sample_input (nth 0 ex_gray default_tensor) 1))
             1 (1 * 1 + 0) 0) = (1 * 2 + 1) * 1 + 0.
Proof.
  split; [simpl; lia|].
  exact (proj1 (flattened_addressing DALI_UINT8 ex_gray
    [pack_cell default_cell (nth 0 ex_gray_grid default_grid_input) ex_gray 1]
    default_sample 0 default_sample_input (nth 0 ex_gray default_tensor) default_cell
    (nth 0 ex_gray_grid default_grid_input) 1 1 1 0 0 ltac:(simpl; lia) eq_refl)).
Defined.

(** A successful [Setup] followed by [Run]: the packed arrays hold exactly
    one descriptor per sample and per grid cell, descriptor [i] points at
    output [i] with sample [i]'s first grid cell index, and the blocks are
    those planned on the shapes with width and channels merged. *)
Theorem Setup_then_Run_descriptors :
  forall szS szG szB SetupBlocks self inl samples grid out_shape outl req self',
  Setup szS szG szB SetupBlocks self inl samples grid out_shape = Datatypes.inr (req, self') ->
  let r := Run self' outl inl samples grid in
  length (sample_descriptors_ r) = length samples /\
  length (grid_cell_descriptors_ r) = length grid /\
  blocks_ r = SetupBlocks (map collapse_dim1 out_shape) /\
  (forall i, (i < length samples)%nat ->
     sout (nth i (sample_descriptors_ r) default_sample) = Some i /\
     grid_cell_start_idx (nth i (sample_descriptors_ r) default_sample)
       = si_grid_cell_start_idx (nth i samples default_sample_input)).
Proof.
  intros szS szG szB SetupBlocks self inl samples grid out_shape outl req self' HS r.
  unfold Setup in HS. destruct (negb (channels_equal inl)); [discriminate|].
  injection HS as _ <-.
  unfold r, Run, CreateSampleDescriptors; cbn [sample_descriptors_ grid_cell_descriptors_ blocks_].
  split; [|split; [|split]].
  - rewrite length_pack_samples; rewrite length_resize; lia.
  - rewrite length_pack_cells; rewrite length_resize; lia.
  - reflexivity.
  - intros i Hi. rewrite nth_pack_samples by (rewrite ?length_resize; lia).
    split; reflexivity.
Qed.

Lemma Setup_then_Run_descriptors_witness :
  Setup 32 40 20 (fun _ => ex_blocks) ex_self0 ex_gray ex_gray_samples ex_gray_grid [[2; 2; 1]]
    = Datatypes.inr ({| scratch_sizes := se_add (se_add (se_add [] GPU 32 1) GPU 40 1) GPU 20 1 |},
                     {| sample_descriptors_ := [default_sample];
                        grid_cell_descriptors_ := [default_cell]; blocks_ := ex_blocks |}) /\
  length (sample_descriptors_ (Run {| sample_descriptors_ := [default_sample];
                                     grid_cell_descriptors_ := [default_cell];
                                     blocks_ := ex_blocks |} ex_gray ex_gray ex_gray_samples
                                  ex_gray_grid)) = 1%nat.
Proof.
  split; [reflexivity|].
  exact (proj1 (Setup_then_Run_descriptors 32 40 20 (fun _ => ex_blocks) ex_self0 ex_gray
                  ex_gray_samples ex_gray_grid [[2; 2; 1]] ex_gray _ _ eq_refl)).
Defined.

(** Thread [(tx, ty)] of a block writes exactly the block's pixels whose
    offsets from the block start are congruent to [(ty, tx)] modulo the
    block dimensions: the threads of a block split its pixels among them,
    every pixel going to one thread, and nothing outside the block is
    written.  No grid invariant is needed. *)
Theorem PasteKernel_thread_pixels :
  forall OutputType inl samples grid_cells blocks blockIdx tx ty bdx bdy y x,
  0 <= tx < bdx -> 0 <= ty < bdy ->
  let block := nth blockIdx blocks default_block in
  In (y, x) (positions (PasteKernel OutputType inl samples grid_cells blocks blockIdx
                          tx ty bdx bdy)) <->
  start_y block <= y < end_y block /\ start_x block <= x < end_x block /\
  (y - start_y block) mod bdy = ty /\ (x - start_x block) mod bdx = tx.
Proof.
  intros OutputType inl samples grid_cells blocks blockIdx tx ty bdx bdy y x Htx Hty block.
  unfold PasteKernel, thread_scan. fold block.
  rewrite row_loop_positions by lia. split.
  - intros [i [j [Hi [Hli [Hj [Hlj Hp]]]]]]. injection Hp as -> ->.
    split; [nia|]. split; [nia|]. split.
    + replace (ty + start_y block + Z.of_nat i * bdy - start_y block)
        with (ty + Z.of_nat i * bdy) by lia.
      rewrite Z.mod_add by lia. apply Z.mod_small; lia.
    + replace (tx + start_x block + Z.of_nat j * bdx - start_x block)
        with (tx + Z.of_nat j * bdx) by lia.
      rewrite Z.mod_add by lia. apply Z.mod_small; lia.
  - intros [Hy [Hx [Hmy Hmx]]].
    pose proof (Z.div_mod (y - start_y block) bdy ltac:(lia)) as Ey.
    pose proof (Z.div_mod (x - start_x block) bdx ltac:(lia)) as Ex.
    rewrite Hmy in Ey; rewrite Hmx in Ex.
    assert (Hqy : 0 <= (y - start_y block) / bdy) by (apply Z.div_pos; lia).
    assert (Hqx : 0 <= (x - start_x block) / bdx) by (apply Z.div_pos; lia).
    exists (Z.to_nat ((y - start_y block) / bdy)), (Z.to_nat ((x - start_x block) / bdx)).
    rewrite !Z2Nat.id by lia.
    repeat split; try nia. f_equal; lia.
Qed.

Lemma PasteKernel_thread_pixels_witness :
  (0 <= 1 < 2 /\ 0 <= 0 < 2) /\
  In (2, 3) (positions (PasteKernel DALI_UINT8 ex_inputs ex_samples ex_cells ex_blocks 0
                          1 0 2 2)).
Proof.
  split; [lia|].
  apply (PasteKernel_thread_pixels DALI_UINT8 ex_inputs ex_samples ex_cells ex_blocks 0
           1 0 2 2 2 3 ltac:(lia) ltac:(lia)).
  simpl. repeat split; try lia; reflexivity.
Defined.

(** A thread of [PasteKernel] never writes the same output position twice:
    its visits are in increasing row-major order. *)
Theorem PasteKernel_thread_no_repeat :
  forall OutputType inl samples grid_cells blocks blockIdx tx ty bdx bdy,
  0 < bdx -> 0 < bdy ->
  NoDup (positions (PasteKernel OutputType inl samples grid_cells blocks blockIdx
                      tx ty bdx bdy)).
Proof.
  intros OutputType inl samples grid_cells blocks blockIdx tx ty bdx bdy Hbx Hby.
  unfold PasteKernel, thread_scan. apply row_loop_nodup; assumption.
Qed.

Lemma PasteKernel_thread_no_repeat_witness :
  NoDup (positions (PasteKernel DALI_UINT8 ex_inputs ex_samples ex_cells ex_blocks 0 0 0 1 1)).
Proof. exact (PasteKernel_thread_no_repeat DALI_UINT8 ex_inputs ex_samples ex_cells ex_blocks
                0 0 0 1 1 ltac:(lia) ltac:(lia)). Defined.

(** In [RunImpl], an element of the canvas covered by no paste iteration of
    its sample (whichever order the thread pool runs them in) holds 0 when
    it lies wholly within the first [H * W * C] bytes, and keeps the value
    it had before the run when it starts at or past byte [H * W * C]: for
    [uint8_t] the whole background is cleared, for wider types only its
    first [1 / sizeof] part. *)
Theorem RunImpl_background :
  forall OutputType out_sh images iters dispatch prior e,
  0 < type_size OutputType -> Permutation iters dispatch ->
  Forall (fun it => covers out_sh it e = false) iters ->
  let n := nth 0 out_sh 0 * nth 1 out_sh 0 * nth 2 out_sh 0 in
  let r := RunImpl_sample OutputType out_sh images iters dispatch prior e in
  (0 <= e -> (e + 1) * type_size OutputType <= n -> r = 0) /\
  (n <= e * type_size OutputType -> r = prior e).
Proof.
  intros OutputType out_sh images iters dispatch prior e Hsz Hp Hunc n r.
  assert (Hr : r = memset_zero (type_size OutputType) n prior e).
  { unfold r, RunImpl_sample. fold n.
    destruct (no_intersections iters); apply run_pastes_uncovered; [|exact Hunc].
    apply (Permutation_Forall Hp); exact Hunc. }
  rewrite Hr. unfold memset_zero. split.
  - intros He Hb. apply Z.leb_le in Hb. apply Z.leb_le in He. rewrite He, Hb. reflexivity.
  - intros Hb. destruct (0 <=? e) eqn:He; [|reflexivity].
    replace ((e + 1) * type_size OutputType <=? n) with false by (symmetry; apply Z.leb_gt; nia).
    replace (e * type_size OutputType <? n) with false by (symmetry; apply Z.ltb_ge; lia).
    reflexivity.
Qed.

Lemma RunImpl_background_witness :
  RunImpl_sample DALI_UINT8 [1; 2; 1] ex_px_images [] [] (fun _ => 7) 1 = 0.
Proof.
  exact (proj1 (RunImpl_background DALI_UINT8 [1; 2; 1] ex_px_images [] [] (fun _ => 7) 1
                  ltac:(simpl; lia) (Permutation_refl _) (Forall_nil _)) ltac:(lia) ltac:(simpl; lia)).
Defined.

(** [RunImpl] never writes outside a sample's canvas: the elements before
    index 0 or at index [H * W * C] and beyond keep their values. *)
Theorem RunImpl_stays_in_canvas :
  forall OutputType out_sh images iters dispatch prior e,
  0 < type_size OutputType ->
  e < 0 \/ nth 0 out_sh 0 * nth 1 out_sh 0 * nth 2 out_sh 0 <= e ->
  RunImpl_sample OutputType out_sh images iters dispatch prior e = prior e.
Proof.
  intros OutputType out_sh images iters dispatch prior e Hsz He.
  assert (Hunc : forall l, Forall (fun it => covers out_sh it e = false) l).
  { intros l. apply Forall_forall. intros it _.
    destruct (covers out_sh it e) eqn:Ec; [|reflexivity].
    apply covers_in_canvas in Ec. lia. }
  unfold RunImpl_sample.
  destruct (no_intersections iters); rewrite run_pastes_uncovered by apply Hunc;
    unfold memset_zero;
    (destruct (0 <=? e) eqn:E0; [apply Z.leb_le in E0|reflexivity]);
    (replace ((e + 1) * type_size OutputType <=?
               nth 0 out_sh 0 * nth 1 out_sh 0 * nth 2 out_sh 0) with false
       by (symmetry; apply Z.leb_gt; nia));
    (replace (e * type_size OutputType <? nth 0 out_sh 0 * nth 1 out_sh 0 * nth 2 out_sh 0)
       with false by (symmetry; apply Z.ltb_ge; nia));
    reflexivity.
Qed.

Lemma RunImpl_stays_in_canvas_witness :
  RunImpl_sample DALI_INT32 [1; 2; 1] ex_px_images [ex_px 0 0] [ex_px 0 0] (fun _ => 7) 2 = 7.
Proof.
  exact (RunImpl_stays_in_canvas DALI_INT32 [1; 2; 1] ex_px_images [ex_px 0 0] [ex_px 0 0]
           (fun _ => 7) 2 ltac:(simpl; lia) ltac:(simpl; lia)).
Defined.
